(** * Compute-subnet validator: a shallow embedding of [neurons/validator.py]

    The validator keeps a registry of known miners (uid -> hotkey), derives
    the queryable set of axons for each challenge round, calibrates a
    proof-of-work difficulty per miner, dispatches challenges in batches of
    threads and periodically commits a weight vector.

    Python dictionaries are modelled as [gmap], Python sets as [gset],
    Python integers as [Z], database averages as [Q].  Calls into the
    database layer and into the thread library are recorded as events, so
    that "what was done, and in what order" can be stated. *)

From Stdlib Require Import ZArith QArith Qround Qabs Qfield Lia Lqa.
From stdpp Require Import gmap strings list fin_maps.

Local Open Scope Z_scope.

(** ** Data model *)

(** [bt.AxonInfo], restricted to the fields the validator reads. *)
Record AxonInfo := mkAxon {
  ip : string;
  port : Z;
  hotkey : string;
  coldkey : string;
  version : Z
}.

(** [bt.NeuronInfoLite], restricted to the fields read by [is_blacklisted]. *)
Record NeuronInfoLite := mkNeuron {
  neuron_coldkey : string;
  neuron_hotkey : string
}.

(** Python truthiness of the containers the validator tests with [if]. *)
Definition dict_truthy {V} (m : gmap Z V) : bool := bool_decide (m ≠ ∅).
Definition set_truthy `{Countable K} (s : gset K) : bool := bool_decide (s ≠ ∅).

(** Python exception classes.  The classes the sources name are
    constructors; any other class is given by its name and the names of
    the classes it derives from, directly or not, so that an [except]
    clause can be decided for it.  [NotImplementedError] is a subclass of
    [RuntimeError]. *)
Inductive exn :=
| RuntimeError
| NotImplementedError
| KeyboardInterrupt
| KeyError
| ValueError
| ZeroDivisionError
| ConnectionError
| OtherException (name : string) (bases : list string).

#[global] Instance exn_eq_dec : EqDecision exn.
Proof. solve_decision. Defined.

(** [issubclass] for a class given by name and bases. *)
Definition derives_from (c name : string) (bases : list string) : bool :=
  bool_decide (c ∈ name :: bases).

(** [isinstance(e, RuntimeError)]. *)
Definition is_RuntimeError (e : exn) : bool :=
  match e with
  | RuntimeError | NotImplementedError => true
  | OtherException name bases => derives_from "RuntimeError" name bases
  | _ => false
  end.

(** [isinstance(e, KeyboardInterrupt)]. *)
Definition is_KeyboardInterrupt (e : exn) : bool :=
  match e with
  | KeyboardInterrupt => true
  | OtherException name bases => derives_from "KeyboardInterrupt" name bases
  | _ => false
  end.

(** Two built-in classes raised by the code modelled below. *)
Definition OSError : exn := OtherException "OSError" ["Exception"; "BaseException"]%string.
Definition IndexError : exn :=
  OtherException "IndexError" ["LookupError"; "Exception"; "BaseException"]%string.

(** The result of a call that returns or raises. *)
Inductive call (A : Type) :=
| Returns (a : A)
| Raises (e : exn).
Arguments Returns {A} a.
Arguments Raises {A} e.

(** ** Registry lifecycle: [Validator.sync_miners_info] *)

Module Registry.

(** Calls into [neurons.Validator.database.miner]. *)
Inductive db_event :=
| Purge (uid : Z) (old_hotkey : string)      (* purge_miner_entries(db, uid, hotkey) *)
| Upsert (uid : Z) (new_hotkey : string).    (* update_miners(db, [(uid, hotkey)]) *)

#[global] Instance db_event_eq_dec : EqDecision db_event.
Proof. solve_decision. Defined.

Definition event_uid (e : db_event) : Z :=
  match e with Purge u _ | Upsert u _ => u end.

(** The property [miners_items_to_set]:
    [set((uid, hotkey) for ...) if self.miners else None]. *)
Definition miners_items_to_set (miners : gmap Z string) : option (gset (Z * string)) :=
  if dict_truthy miners then Some (list_to_set (map_to_list miners)) else None.

(** The guard of the loop body:
    [self.miners_items_to_set and (uid, axon.hotkey) not in self.miners_items_to_set]. *)
Definition needs_resync (miners : gmap Z string) (uid : Z) (hk : string) : bool :=
  match miners_items_to_set miners with
  | None => false
  | Some s => set_truthy s && bool_decide ((uid, hk) ∉ s)
  end.

(** One iteration of the [for uid, axon in ...] loop.  [self.miners[uid]]
    raises [KeyError] for an unknown uid, which skips the purge only. *)
Definition sync_one (miners : gmap Z string) (uid : Z) (axon : AxonInfo)
  : gmap Z string * list db_event :=
  if needs_resync miners uid (hotkey axon) then
    let purge := match miners !! uid with
                 | Some old => [Purge uid old]
                 | None => []
                 end in
    (<[uid := hotkey axon]> miners, purge ++ [Upsert uid (hotkey axon)])
  else (miners, []).

Fixpoint sync_loop (miners : gmap Z string) (l : list (Z * AxonInfo))
  : gmap Z string * list db_event :=
  match l with
  | [] => (miners, [])
  | (uid, axon) :: rest =>
      let '(m1, e1) := sync_one miners uid axon in
      let '(m2, e2) := sync_loop m1 rest in
      (m2, e1 ++ e2)
  end.

(** [sync_miners_info]: an empty list only logs a warning. *)
Definition sync_miners_info (miners : gmap Z string)
    (queryable_tuple_uids_axons : list (Z * AxonInfo))
  : gmap Z string * list db_event :=
  match queryable_tuple_uids_axons with
  | [] => (miners, [])
  | _ => sync_loop miners queryable_tuple_uids_axons
  end.

(** The database calls that concern one uid, in the order they were made. *)
Definition events_of (uid : Z) (es : list db_event) : list db_event :=
  List.filter (fun e => bool_decide (event_uid e = uid)) es.

End Registry.

(** ** Deduplication stage: [Validator.filter_axons] *)

Module Dedup.

(** The loop state: [valid_ip_addresses] and [dict_filtered_axons]. *)
Fixpoint filter_loop (valid_ip_addresses : gset string)
    (dict_filtered_axons : gmap Z AxonInfo) (l : list (Z * AxonInfo))
  : gmap Z AxonInfo :=
  match l with
  | [] => dict_filtered_axons
  | (uid, axon) :: rest =>
      if bool_decide (ip axon ∉ valid_ip_addresses) then
        filter_loop ({[ip axon]} ∪ valid_ip_addresses)
                    (<[uid := axon]> dict_filtered_axons) rest
      else filter_loop valid_ip_addresses dict_filtered_axons rest
  end.

Definition filter_axons (queryable_tuple_uids_axons : list (Z * AxonInfo))
  : gmap Z AxonInfo :=
  filter_loop ∅ ∅ queryable_tuple_uids_axons.

(** [i] is the first position of [l] that carries the address of [ax]. *)
Definition first_with_ip (l : list (Z * AxonInfo)) (i : nat) (ax : AxonInfo) : Prop :=
  ∀ j p, (j < i)%nat → l !! j = Some p → ip p.2 ≠ ip ax.

End Dedup.

(** ** Difficulty controller: [Validator.calc_difficulty] *)

Module Difficulty.

(** One row of [select_challenge_stats]; [None] is a key that is absent or
    holds no number, i.e. what [stat.get(...)] hands over. *)
Record Stat := mkStat {
  last_20_difficulty_avg : option Q;
  last_20_challenge_failed : option Q;
  challenge_successes : option Q
}.

(** Modelled from the spec: [compute.utils.math.force_to_float_or_default]
    is imported, not defined, in the sources; the spec's
    "ceil(avg(last-20 difficulties), default=D_min)" is read as: the number
    when there is one, the default otherwise. *)
Definition force_to_float_or_default (val : option Q) (default : Q) : Q :=
  match val with
  | Some q => q
  | None => default
  end.

Section Calc.

(** [compute.pow_min_difficulty], a constant of the [compute] package. *)
Variable pow_min_difficulty : Z.
(** The default of [force_to_float_or_default]'s second parameter. *)
Variable float_default : Q.

(** The conditional expression assigned to [difficulty]. *)
Definition adjust (current_difficulty : Z) (last_20_challenge_failed : Q) : Z :=
  if Qeq_bool last_20_challenge_failed 0 then current_difficulty + 1
  else if Qle_bool 2 last_20_challenge_failed then current_difficulty - 1
  else current_difficulty.

(** The value the code binds to [current_difficulty]. *)
Definition current_of (stat : Stat) : Z :=
  Qceiling (force_to_float_or_default (last_20_difficulty_avg stat)
                                      (inject_Z pow_min_difficulty)).

(** [self.stats[uid]] raising [KeyError] leaves the initial value.  The
    statistics are rationals here, so the [except Exception] clause, which
    also leaves the initial value, has nothing to catch. *)
Definition calc_difficulty (stats : gmap Z Stat) (uid : Z) : Z :=
  match stats !! uid with
  | None => pow_min_difficulty
  | Some stat =>
      let current_difficulty := current_of stat in
      let failed := force_to_float_or_default (last_20_challenge_failed stat) float_default in
      let successes := force_to_float_or_default (challenge_successes stat) float_default in
      if Qle_bool 20 successes then adjust current_difficulty failed
      else pow_min_difficulty
  end.

End Calc.

End Difficulty.

(** ** Version stage: [Validator.filter_axon_version] *)

Module VersionGate.

(** [latest_version and axon.version >= latest_version]; [None] and [0]
    are falsy. *)
Definition version_ok (latest_version : option Z) (axon : AxonInfo) : bool :=
  match latest_version with
  | Some v => negb (v =? 0) && (v <=? version axon)
  | None => false
  end.

(** The second half of the function: the dictionary comprehension. *)
Definition keep_recent (latest_version : option Z) (d : gmap Z AxonInfo)
  : gmap Z AxonInfo :=
  filter (fun kv => version_ok latest_version kv.2 = true) d.

Section Gate.

(** [compute.utils.math.percent] is imported, not defined, in the sources:
    it is a parameter here, [None] standing for a call that raises. *)
Variable percent : Z -> Z -> option Q.
(** [compute.validator_whitelist_miners_threshold]. *)
Variable validator_whitelist_miners_threshold : Q.

(** The decision of the [if]: it reads the size of the dictionary and
    [self.total_current_miners]. *)
Definition gate_skips (total_current_miners : Z) (d : gmap Z AxonInfo) : option bool :=
  p ← percent (Z.of_nat (size d)) total_current_miners;
  Some (Qle_bool p validator_whitelist_miners_threshold).

Definition filter_axon_version (latest_version : option Z)
    (total_current_miners : Z) (dict_filtered_axons : gmap Z AxonInfo)
  : option (gmap Z AxonInfo) :=
  skip ← gate_skips total_current_miners dict_filtered_axons;
  Some (if skip : bool then dict_filtered_axons
        else keep_recent latest_version dict_filtered_axons).

End Gate.

(** The stage as the specification words it: the share of the set that is
    below the minimum version decides; [max_outdated_percent] is the
    configured maximum. *)
Definition spec_outdated (latest_version : option Z) (d : gmap Z AxonInfo) : nat :=
  size (filter (fun kv => version_ok latest_version kv.2 = false) d).

Definition spec_filter_axon_version (max_outdated_percent : Z)
    (latest_version : option Z) (d : gmap Z AxonInfo) : gmap Z AxonInfo :=
  if max_outdated_percent * Z.of_nat (size d)
       <? 100 * Z.of_nat (spec_outdated latest_version d)
  then d else keep_recent latest_version d.

(** Two sets of ten workers for a minimum version of 150: in the first
    only uid 0 reports an older version, in the second only uid 0 is up to
    date. *)
Definition worker (v : Z) (slot : Z * string) : Z * AxonInfo :=
  (slot.1, mkAxon ("10.0.0." +:+ slot.2) 8091 ("hk" +:+ slot.2) ("ck" +:+ slot.2) v).

Definition ten_slots : list (Z * string) :=
  [(0, "0"); (1, "1"); (2, "2"); (3, "3"); (4, "4");
   (5, "5"); (6, "6"); (7, "7"); (8, "8"); (9, "9")]%string.

Definition one_outdated : gmap Z AxonInfo :=
  list_to_map (List.map (fun sl => worker (if sl.1 =? 0 then 140 else 150) sl) ten_slots).

Definition nine_outdated : gmap Z AxonInfo :=
  list_to_map (List.map (fun sl => worker (if sl.1 =? 0 then 150 else 140) sl) ten_slots).

End VersionGate.

(** ** Blacklist stage: [Validator.is_blacklisted], [get_valid_queryable] *)

Module Blacklist.

(** The four sets built in [__init__]; they live as long as the process.
    With [blacklist_exploiters] off the two exploiter collections are
    empty. *)
Record Lists := mkLists {
  blacklist_coldkeys : gset string;
  blacklist_hotkeys : gset string;
  exploiters_coldkeys : gset string;
  exploiters_hotkeys : gset string
}.

(** The four checks in source order; the second and the fourth [add] to a
    set before returning. *)
Definition is_blacklisted (st : Lists) (neuron : NeuronInfoLite) : bool * Lists :=
  let ck := neuron_coldkey neuron in
  let hk := neuron_hotkey neuron in
  if bool_decide (ck ∈ blacklist_coldkeys st) then (true, st)
  else if bool_decide (hk ∈ blacklist_hotkeys st) then
    (true, mkLists (blacklist_coldkeys st) ({[ck]} ∪ blacklist_hotkeys st)
                   (exploiters_coldkeys st) (exploiters_hotkeys st))
  else if bool_decide (ck ∈ exploiters_coldkeys st) then (true, st)
  else if bool_decide (hk ∈ exploiters_hotkeys st) then
    (true, mkLists (blacklist_coldkeys st) (blacklist_hotkeys st)
                   (exploiters_coldkeys st) ({[ck]} ∪ exploiters_hotkeys st))
  else (false, st).

(** One slot of the metagraph: [neurons[uid]], [axons[uid]],
    [total_stake[uid]]. *)
Record Slot := mkSlot {
  slot_uid : Z;
  slot_neuron : NeuronInfoLite;
  slot_axon : AxonInfo;
  slot_stake : Q
}.

(** [get_valid_queryable]: [and] short-circuits, so [is_blacklisted] runs
    only for slots that pass the address and stake tests. *)
Fixpoint get_valid_queryable (st : Lists) (slots : list Slot)
  : list (Z * AxonInfo) * Lists :=
  match slots with
  | [] => ([], st)
  | sl :: rest =>
      if negb (String.eqb (ip (slot_axon sl)) "0.0.0.0")
         && negb (Qle_bool 1024 (slot_stake sl))
      then
        let '(b, st1) := is_blacklisted st (slot_neuron sl) in
        let '(q, st2) := get_valid_queryable st1 rest in
        (if b then q else (slot_uid sl, slot_axon sl) :: q, st2)
      else get_valid_queryable st rest
  end.

(** Set-wise inclusion of all four lists. *)
Definition lists_incl (a b : Lists) : Prop :=
  blacklist_coldkeys a ⊆ blacklist_coldkeys b ∧
  blacklist_hotkeys a ⊆ blacklist_hotkeys b ∧
  exploiters_coldkeys a ⊆ exploiters_coldkeys b ∧
  exploiters_hotkeys a ⊆ exploiters_hotkeys b.

End Blacklist.

(** ** Challenge dispatcher: the batching loop of [Validator.start] *)

Module Dispatcher.

(** What the orchestrator thread does with the thread library. *)
Inductive thread_event :=
| Start (uid : Z)
| Join (uid : Z).

#[global] Instance thread_event_eq_dec : EqDecision thread_event.
Proof. solve_decision. Defined.

(** [range(0, stop, step)]; a zero step raises [ValueError]. *)
Definition py_range (stop step : nat) : option (list nat) :=
  match step with
  | O => None
  | S _ => Some (List.map (fun k => (k * step)%nat)
                          (seq 0 ((stop + step - 1) / step)%nat))
  end.

(** [l[i : j]] for [0 <= i <= j]. *)
Definition slice {A} (l : list A) (i j : nat) : list A :=
  take (j - i) (drop i l).

(** The inner loop: a thread object is appended for each uid of the slice
    that is a key of [_queryable_uids]; [KeyError] skips the others.  A
    thread is identified by the uid in its name. *)
Definition build_threads (queryable : gmap Z AxonInfo) (batch : list Z) : list Z :=
  List.filter (fun u => bool_decide (is_Some (queryable !! u))) batch.

(** The outer loop: [self.threads = []] at the top of each iteration, then
    the inner loop; [pow_requests] collects a request per thread built. *)
Fixpoint batch_loop (queryable : gmap Z AxonInfo) (uids : list Z) (B : nat)
    (starts : list nat) (threads pow_requests : list Z) : list Z * list Z :=
  match starts with
  | [] => (threads, pow_requests)
  | i :: rest =>
      let ths := build_threads queryable (slice uids i (i + B)) in
      batch_loop queryable uids B rest ths (pow_requests ++ ths)
  end.

(** The two loops, [thread.start()] and [thread.join()], that follow the
    outer loop. *)
Definition start_and_join (threads : list Z) : list thread_event :=
  List.map Start threads ++ List.map Join threads.

(** Lines 344-370 of the challenge sub-round.  [threads0] is
    [self.threads] as the previous round left it, every one of them started
    and joined then.  The result is the final [self.threads], the keys of
    [pow_requests] and the thread events.  A zero batch size makes [range]
    raise [ValueError]; with no uid at all the outer loop does not run and
    [start()] is called on a thread of the previous round, which raises
    [RuntimeError]. *)
Definition dispatch (threads0 : list Z) (uids : list Z)
    (queryable : gmap Z AxonInfo) (validator_challenge_batch_size : nat)
  : call (list Z * list Z * list thread_event) :=
  match py_range (length uids) validator_challenge_batch_size with
  | None => Raises ValueError
  | Some starts =>
      let '(threads, reqs) :=
        batch_loop queryable uids validator_challenge_batch_size starts threads0 [] in
      match starts, threads0 with
      | [], _ :: _ => Raises RuntimeError
      | _, _ => Returns (threads, reqs, start_and_join threads)
      end
  end.

(** The dispatcher as the specification words it: the workers are cut
    into consecutive batches of at most [B], and each batch is started and
    joined before the next one. *)
Fixpoint spec_batches (fuel : nat) (B : nat) (workers : list Z) : list (list Z) :=
  match fuel, workers with
  | O, _ | _, [] => []
  | S fuel', _ => take B workers :: spec_batches fuel' B (drop B workers)
  end.

Definition spec_dispatch (B : nat) (workers : list Z) : list thread_event :=
  concat (List.map start_and_join (spec_batches (length workers) B workers)).

(** Five queryable workers, uids 0 to 4. *)
Definition five_uids : list Z := [0; 1; 2; 3; 4].

Definition five_workers : gmap Z AxonInfo :=
  list_to_map (List.map (VersionGate.worker 150) (take 5 VersionGate.ten_slots)).

End Dispatcher.

(** ** Round orchestrator: the [while True] loop of [Validator.start] *)

Module Orchestrator.

(** What an observer of the process sees. *)
Inductive log_event :=
| ChallengeRound (block : Z)
| HardwareRound (block : Z)
| StatusSync (block : Z)
| ScoresSynced (block : Z)
| CommitAttempt (block : Z) (result : bool)   (* subtensor.set_weights returned *)
| Slept (block : Z)
| ErrorLogged (e : exn)                       (* bt.logging.error(e) *)
| DbClosed.

#[global] Instance log_event_eq_dec : EqDecision log_event.
Proof. solve_decision. Defined.

(** The locals of [start] and the attributes it assigns. *)
Record LoopState := mkLoop {
  block_next_challenge : Z;
  block_next_hardware_info : Z;
  block_next_sync_status : Z;
  block_next_set_weights : Z;
  last_updated_block : Z;
  blocks_done : gset Z;
  log : list log_event
}.

(** The hardware sub-round: it completes, or the script cannot be read
    (logged, then [continue]), or something raises. *)
Inductive hw_outcome :=
| HwDone
| HwFileError
| HwRaises (e : exn).

(** What the environment does during one iteration.  The block height is
    read once per iteration here; the property [current_block] asks the
    chain at each use. *)
Record TickEnv := mkTick {
  current_block : Z;
  sync_local : call unit;
  randint_40_80 : Z;
  challenge : call unit;          (* get_queryable ... sync_scores *)
  hardware : hw_outcome;
  sync_status : call unit;
  sync_scores : call unit;
  subtensor_set_weights : call bool
}.

(** A small monad for the loop body: state, exceptions and [continue]. *)
Inductive outcome (A : Type) :=
| Done (a : A) (s : LoopState)
| Raised (e : exn) (s : LoopState)
| Continue (s : LoopState).
Arguments Done {A} a s.
Arguments Raised {A} e s.
Arguments Continue {A} s.

Definition M (A : Type) : Type := LoopState -> outcome A.

#[global] Instance M_ret : MRet M := fun A a s => Done a s.

#[global] Instance M_bind : MBind M := fun A B k m s =>
  match m s with
  | Done a s' => k a s'
  | Raised e s' => Raised e s'
  | Continue s' => Continue s'
  end.

Definition raise {A} (e : exn) : M A := fun s => Raised e s.
Definition continue {A} : M A := fun s => Continue s.
Definition get : M LoopState := fun s => Done s s.
Definition modify (f : LoopState -> LoopState) : M unit := fun s => Done tt (f s).
Definition when (b : bool) (m : M unit) : M unit := if b then m else mret tt.

Definition append_log (e : log_event) (s : LoopState) : LoopState :=
  mkLoop (block_next_challenge s) (block_next_hardware_info s)
         (block_next_sync_status s) (block_next_set_weights s)
         (last_updated_block s) (blocks_done s) (log s ++ [e]).

Definition say (e : log_event) : M unit := modify (append_log e).

(** A call that returns or raises. *)
Definition perform {A} (c : call A) : M A :=
  match c with
  | Returns a => mret a
  | Raises e => raise e
  end.

(** [a % b == 0]; Python raises [ZeroDivisionError] for [b = 0]. *)
Definition divides (a b : Z) : M bool :=
  if b =? 0 then raise ZeroDivisionError else mret (a mod b =? 0).

(** Assignments to the locals and attributes. *)
Definition set_block_next_challenge (v : Z) : M unit :=
  modify (fun s => mkLoop v (block_next_hardware_info s) (block_next_sync_status s)
                          (block_next_set_weights s) (last_updated_block s)
                          (blocks_done s) (log s)).
Definition set_block_next_hardware_info (v : Z) : M unit :=
  modify (fun s => mkLoop (block_next_challenge s) v (block_next_sync_status s)
                          (block_next_set_weights s) (last_updated_block s)
                          (blocks_done s) (log s)).
Definition set_block_next_sync_status (v : Z) : M unit :=
  modify (fun s => mkLoop (block_next_challenge s) (block_next_hardware_info s) v
                          (block_next_set_weights s) (last_updated_block s)
                          (blocks_done s) (log s)).
Definition set_block_next_set_weights (v : Z) : M unit :=
  modify (fun s => mkLoop (block_next_challenge s) (block_next_hardware_info s)
                          (block_next_sync_status s) v (last_updated_block s)
                          (blocks_done s) (log s)).
Definition set_last_updated_block (v : Z) : M unit :=
  modify (fun s => mkLoop (block_next_challenge s) (block_next_hardware_info s)
                          (block_next_sync_status s) (block_next_set_weights s) v
                          (blocks_done s) (log s)).
Definition set_blocks_done (d : gset Z) : M unit :=
  modify (fun s => mkLoop (block_next_challenge s) (block_next_hardware_info s)
                          (block_next_sync_status s) (block_next_set_weights s)
                          (last_updated_block s) d (log s)).

Section Loop.

(** [compute.weights_rate_limit] and the configuration flag. *)
Variable weights_rate_limit : Z.
Variable validator_perform_hardware_query : bool.

(** [Validator.set_weights]: the result of the commit is logged; the
    method itself returns nothing. *)
Definition set_weights (env : TickEnv) : M unit :=
  result ← perform (subtensor_set_weights env);
  say (CommitAttempt (current_block env) result).

Definition challenge_part (env : TickEnv) : M unit :=
  s ← get;
  due ← divides (current_block env) (block_next_challenge s);
  when due
    (set_block_next_challenge (current_block env + randint_40_80 env);;
     perform (challenge env);;
     say (ChallengeRound (current_block env))).

Definition hardware_part (env : TickEnv) : M unit :=
  s ← get;
  due ← divides (current_block env) (block_next_hardware_info s);
  when (due && validator_perform_hardware_query)
    (set_block_next_hardware_info (current_block env + 125);;
     match hardware env with
     | HwDone => say (HardwareRound (current_block env))
     | HwFileError => say (ErrorLogged OSError);; continue
     | HwRaises e => raise e
     end).

Definition sync_status_part (env : TickEnv) : M unit :=
  s ← get;
  due ← divides (current_block env) (block_next_sync_status s);
  when due
    (set_block_next_sync_status (current_block env + 25);;
     perform (sync_status env);;
     say (StatusSync (current_block env))).

(** Lines 436-442. *)
Definition weights_part (env : TickEnv) : M unit :=
  s ← get;
  when (weights_rate_limit <? current_block env - last_updated_block s)
    (set_block_next_set_weights (current_block env + weights_rate_limit);;
     perform (sync_scores env);;
     say (ScoresSynced (current_block env));;
     set_weights env;;
     set_last_updated_block (current_block env);;
     set_blocks_done {[current_block env]}).

(** The body of the [try]. *)
Definition body (env : TickEnv) : M unit :=
  perform (sync_local env);;
  s ← get;
  when (bool_decide (current_block env ∉ blocks_done s))
    (set_blocks_done ({[current_block env]} ∪ blocks_done s);;
     challenge_part env;;
     hardware_part env;;
     sync_status_part env;;
     weights_part env);;
  say (Slept (current_block env)).

(** Where the process stands after some iterations. *)
Inductive status :=
| Running (s : LoopState)
| Exited (s : LoopState)             (* exit() in the KeyboardInterrupt clause *)
| Crashed (e : exn) (s : LoopState). (* the exception leaves start() *)

(** One iteration of [while True]: the body under its two [except]
    clauses. *)
Definition iteration (env : TickEnv) (s : LoopState) : status :=
  match body env s with
  | Done _ s' => Running s'
  | Continue s' => Running s'
  | Raised e s' =>
      if is_RuntimeError e then Running (append_log (ErrorLogged e) s')
      else if is_KeyboardInterrupt e then Exited (append_log DbClosed s')
      else Crashed e s'
  end.

(** The loop over a finite sequence of environments. *)
Fixpoint run (envs : list TickEnv) (s : LoopState) : status :=
  match envs with
  | [] => Running s
  | env :: rest =>
      match iteration env s with
      | Running s' => run rest s'
      | st => st
      end
  end.

(** The state at the top of [start], after [__init__]. *)
Definition initial (block_at_init block_at_start : Z) : LoopState :=
  mkLoop 1 1 1 (block_at_start + weights_rate_limit)
         (block_at_init - block_at_init mod 100) ∅ [].

End Loop.

Definition state_of (st : status) : LoopState :=
  match st with
  | Running s | Exited s | Crashed _ s => s
  end.

(** The exceptions the collaborators raise during one iteration. *)
Definition raised_by {A} (c : call A) : list exn :=
  match c with
  | Raises e => [e]
  | Returns _ => []
  end.

Definition env_exceptions (env : TickEnv) : list exn :=
  raised_by (sync_local env) ++ raised_by (challenge env)
  ++ match hardware env with HwRaises e => [e] | _ => [] end
  ++ raised_by (sync_status env) ++ raised_by (sync_scores env)
  ++ raised_by (subtensor_set_weights env).

(** Block heights are not negative and [random.randint(40, 80)] stays in
    its range. *)
Definition env_wf (env : TickEnv) : Prop :=
  0 ≤ current_block env ∧ 40 ≤ randint_40_80 env ≤ 80.

(** The three schedule locals stay positive, so [%] never divides by 0. *)
Definition schedule_positive (s : LoopState) : Prop :=
  0 < block_next_challenge s ∧ 0 < block_next_hardware_info s ∧
  0 < block_next_sync_status s.

(** Started in a state that satisfies [P] and has a positive schedule, the
    computation keeps the schedule positive and raises nothing but what a
    collaborator raised. *)
Definition keeps_from {A} (env : TickEnv) (P : LoopState → Prop) (m : M A) : Prop :=
  ∀ s, P s → schedule_positive s →
    match m s with
    | Done _ s' => schedule_positive s'
    | Continue s' => schedule_positive s'
    | Raised e s' => schedule_positive s' ∧ e ∈ env_exceptions env
    end.

Definition keeps {A} (env : TickEnv) (m : M A) : Prop :=
  keeps_from env (fun _ => True) m.

(** A state some way into a run with a rate limit of 100 blocks, and
    iterations in which every collaborator returns, bar the one named. *)
Definition mid_run : LoopState := mkLoop 1150 1200 1125 1200 1000 ∅ [].

Definition quiet_tick (block : Z) : TickEnv :=
  mkTick block (Returns tt) 60 (Returns tt) HwDone (Returns tt) (Returns tt)
         (Returns true).

Definition tick_commit_fails (block : Z) : TickEnv :=
  mkTick block (Returns tt) 60 (Returns tt) HwDone (Returns tt) (Returns tt)
         (Returns false).

Definition tick_sync_raises (block : Z) (e : exn) : TickEnv :=
  mkTick block (Raises e) 60 (Returns tt) HwDone (Returns tt) (Returns tt)
         (Returns true).

End Orchestrator.

(** ** Membership filter as a whole: [get_valid_tensors], [get_queryable] *)

Module Queryable.

(** [get_valid_tensors]: one boolean per slot of the metagraph; the
    blacklist check runs only for slots with an assigned address. *)
Fixpoint get_valid_tensors (st : Blacklist.Lists) (slots : list Blacklist.Slot)
  : list bool * Blacklist.Lists :=
  match slots with
  | [] => ([], st)
  | sl :: rest =>
      if negb (String.eqb (ip (Blacklist.slot_axon sl)) "0.0.0.0") then
        let '(b, st1) := Blacklist.is_blacklisted st (Blacklist.slot_neuron sl) in
        let '(t, st2) := get_valid_tensors st1 rest in
        (negb b :: t, st2)
      else
        let '(t, st2) := get_valid_tensors st rest in
        (false :: t, st2)
  end.

(** What [get_queryable] leaves behind: the dictionary it returns ([None]
    when [percent] raises), the blacklist sets, the known-miners map and
    the database calls of the reconciliation. *)
Record Round := mkRound {
  round_queryable : option (gmap Z AxonInfo);
  round_lists : Blacklist.Lists;
  round_miners : gmap Z string;
  round_db : list Registry.db_event
}.

Section GetQueryable.

Variable percent : Z -> Z -> option Q.
Variable validator_whitelist_miners_threshold : Q.

(** [get_queryable]: eligibility and blacklist, reconciliation of the
    registry, deduplication by address, version stage. *)
Definition get_queryable (latest_version : option Z) (total_current_miners : Z)
    (st : Blacklist.Lists) (miners : gmap Z string) (slots : list Blacklist.Slot)
  : Round :=
  let '(queryable, st') := Blacklist.get_valid_queryable st slots in
  let '(miners', events) := Registry.sync_miners_info miners queryable in
  let dict_filtered_axons := Dedup.filter_axons queryable in
  mkRound (VersionGate.filter_axon_version percent
             validator_whitelist_miners_threshold latest_version
             total_current_miners dict_filtered_axons)
          st' miners' events.

End GetQueryable.

End Queryable.

(** ** Scores: [Validator.sync_scores] *)

Module Scores.

(** One entry of [self.stats]: the numbers read by [calc_difficulty] and
    the address handed to [calc_score]. *)
Record StatRow := mkRow {
  row_stat : Difficulty.Stat;
  ss58_address : option string
}.

(** [tensor[i] = v] for a one-dimensional tensor: a negative index counts
    from the end, an index out of range raises [IndexError]. *)
Definition tensor_index (len : nat) (i : Z) : option nat :=
  if (0 <=? i) && (i <? Z.of_nat len) then Some (Z.to_nat i)
  else if (- Z.of_nat len <=? i) && (i <? 0) then Some (Z.to_nat (Z.of_nat len + i))
  else None.

(** [except (ValueError, KeyError)]. *)
Definition caught_in_sync_scores (e : exn) : bool :=
  match e with
  | ValueError | KeyError => true
  | OtherException name bases =>
      derives_from "ValueError" name bases || derives_from "KeyError" name bases
  | _ => false
  end.

Section SyncScores.

(** [neurons.Validator.calculate_pow_score.calc_score] is imported, not
    defined, in the sources: a parameter, which returns or raises. *)
Variable calc_score : StatRow -> option string -> call Q.

(** [self.scores] is a tensor of [torch.float32]: [F32] stands for the
    values such a tensor holds and [to_float32] for the conversion a number
    undergoes when it is assigned to a position. *)
Variable F32 : Type.
Variable to_float32 : Q -> F32.

(** The [try] of the loop body: [KeyError] (no entry for the uid) and
    [ValueError] give the score 0, any other exception goes on. *)
Definition score_of (stats : gmap Z StatRow) (uid : Z) : call Q :=
  match stats !! uid with
  | None => Returns 0%Q
  | Some row =>
      match calc_score row (ss58_address row) with
      | Returns q => Returns q
      | Raises e => if caught_in_sync_scores e then Returns 0%Q else Raises e
      end
  end.

(** The loop of [sync_scores] over [self.uids], on the tensor
    [self.scores]. *)
Fixpoint sync_scores (stats : gmap Z StatRow) (uids : list Z) (scores : list F32)
  : call (list F32) :=
  match uids with
  | [] => Returns scores
  | uid :: rest =>
      match score_of stats uid with
      | Raises e => Raises e
      | Returns q =>
          match tensor_index (length scores) uid with
          | None => Raises IndexError
          | Some i => sync_scores stats rest (<[i := to_float32 q]> scores)
          end
      end
  end.

End SyncScores.

End Scores.

(** ** Benchmark results: [Validator.execute_pow_request] and the
    aggregation after the threads *)

Module Benchmark.

(** [result_data]. *)
Record Result := mkResult {
  res_ss58_address : string;
  res_success : bool;
  res_elapsed_time : Q;
  res_difficulty : Z
}.

Section Execute.

(** [Validator.pow.gen_hash] is imported, not defined, in the sources; the
    parameter is the first component of what it returns. *)
Variable gen_hash : string -> string -> string.

(** [response.get("password", "")]: [None] is a response without the
    key. *)
Definition response_password (response : option string) : string :=
  match response with
  | Some pw => pw
  | None => ""
  end.

(** The entry a thread writes for its uid; [elapsed_time] is what the
    clock measured around the query. *)
Definition execute_pow_request (uid : Z) (axon : AxonInfo) (_hash _salt : string)
    (difficulty : Z) (response : option string) (elapsed_time : Q)
  : Z * Result :=
  let pw := response_password response in
  let hashed_response := if String.eqb pw "" then ""%string else gen_hash pw _salt in
  (uid, mkResult (hotkey axon) (String.eqb _hash hashed_response) elapsed_time difficulty).

End Execute.

(** The critical sections [self.new_pow_benchmark[uid] = result_data], in
    the order in which the threads enter them. *)
Definition record (m : gmap Z Result) (writes : list (Z * Result)) : gmap Z Result :=
  foldl (fun acc w => <[w.1 := w.2]> acc) m writes.

(** [v["success"] is True and v["elapsed_time"] < pow_timeout]. *)
Definition in_time (pow_timeout : Q) (r : Result) : bool :=
  res_success r && negb (Qle_bool pow_timeout (res_elapsed_time r)).

(** [pow_benchmark_success]. *)
Definition pow_benchmark_success (pow_timeout : Q) (pow_benchmark : gmap Z Result)
  : gmap Z Result :=
  filter (fun kv => in_time pow_timeout kv.2 = true) pow_benchmark.

End Benchmark.

(** ** Weight vector: the normalization in [Validator.set_weights] *)

Module Weights.

(** The default [eps] of [torch.nn.functional.normalize], 1e-12. *)
Definition eps : Q := 1 # 1000000000000.

(** The score tensor is read as the list of the rationals its float32
    entries are; sums and quotients are exact, the rounding of the
    library's arithmetic is left out.  The total score, and the 1-norm of
    the score vector. *)
Definition total (v : list Q) : Q := fold_right Qplus 0%Q v.

Definition l1_norm (v : list Q) : Q :=
  fold_right (fun x acc => Qabs x + acc)%Q 0%Q v.

(** [x.clamp_min(m)]. *)
Definition clamp_min (x m : Q) : Q := if Qle_bool m x then x else m.

(** [torch.nn.functional.normalize(v, p=1.0, dim=0)] as the library
    documents it, [v / max(norm(v, 1), eps)], on exact numbers. *)
Definition normalize (v : list Q) : list Q :=
  List.map (fun x => x / clamp_min (l1_norm v) eps)%Q v.

(** The local [weights] of [set_weights], which is handed to
    [subtensor.set_weights]; [.float()] leaves a float32 tensor as it
    is. *)
Definition weights (scores : list Q) : list Q := normalize scores.

End Weights.

(** ** Miner details table: [neurons/Validator/database.py] *)

Module MinerDb.

(** Sequencing of calls that return or raise. *)
#[global] Instance call_ret : MRet call := fun A a => Returns a.

#[global] Instance call_bind : MBind call := fun A B k c =>
  match c with
  | Returns a => k a
  | Raises e => Raises e
  end.

(** [d[k]]: a missing key raises [KeyError]. *)
Definition getitem {V} (d : gmap string V) (k : string) : call V :=
  match d !! k with
  | Some v => Returns v
  | None => Raises KeyError
  end.

(** [a < b] on numbers. *)
Definition lt_num (a b : Q) : bool := negb (Qle_bool b a).

(** [check_if_miner_meet].  Details and requirements are dictionaries of
    dictionaries of numbers, as [json.loads] yields them; a requirement
    for the GPU that is empty (or absent as a value) is falsy and is not
    subscripted. *)
Definition check_if_miner_meet (details required_details : gmap string (gmap string Q))
  : call bool :=
  cpu_miner ← getitem details "cpu";
  required_cpu ← getitem required_details "cpu";
  miner_count ← getitem cpu_miner "count";
  required_count ← getitem required_cpu "count";
  if lt_num miner_count required_count then mret false else
  gpu_miner ← getitem details "gpu";
  required_gpu ← getitem required_details "gpu";
  gpu_short ← (if bool_decide (required_gpu ≠ ∅) then
                 miner_capacity ← getitem gpu_miner "capacity";
                 required_capacity ← getitem required_gpu "capacity";
                 mret (lt_num miner_capacity required_capacity)
               else mret false);
  if gpu_short : bool then mret false else
  hard_disk_miner ← getitem details "hard_disk";
  required_hard_disk ← getitem required_details "hard_disk";
  miner_free ← getitem hard_disk_miner "free";
  required_disk ← getitem required_hard_disk "capacity";
  if lt_num miner_free required_disk then mret false else
  ram_miner ← getitem details "ram";
  required_ram ← getitem required_details "ram";
  miner_available ← getitem ram_miner "available";
  required_mem ← getitem required_ram "capacity";
  if lt_num miner_available required_mem then mret false else
  mret true.

(** A row of [miner_details]; the details column holds the dictionary that
    [json.dumps] wrote and [json.loads] reads back. *)
Record Row := mkRow {
  row_id : Z;
  row_hotkey : string;
  row_details : gmap string (gmap string Q)
}.

(** [select_miners_hotkey]: the hotkeys of the rows that meet the
    requirement, in table order. *)
Fixpoint select_miners_hotkey (rows : list Row)
    (device_requirement : gmap string (gmap string Q)) : call (list string) :=
  match rows with
  | [] => mret []
  | row :: rest =>
      ok ← check_if_miner_meet (row_details row) device_requirement;
      hotkey_list ← select_miners_hotkey rest device_requirement;
      mret (if ok : bool then row_hotkey row :: hotkey_list else hotkey_list)
  end.

(** The loop of [update] after the [DELETE]: [hotkey_list[index]] raises
    [IndexError] past the end of the list; the rows inserted so far stay.
    A new row gets the next integer key, starting from 1 in the emptied
    table. *)
Fixpoint insert_rows (hotkey_list : list string)
    (responses : list (gmap string (gmap string Q))) (index : nat) (rows : list Row)
  : list Row * option exn :=
  match responses with
  | [] => (rows, None)
  | perfInfo :: rest =>
      match hotkey_list !! index with
      | None => (rows, Some IndexError)
      | Some hk =>
          insert_rows hotkey_list rest (S index)
            (rows ++ [mkRow (Z.of_nat (length rows) + 1) hk perfInfo])
      end
  end.

(** [update]: the table after the call and the exception that ended it,
    if any. *)
Definition update (table : list Row) (hotkey_list : list string)
    (perfInfo_responses : list (gmap string (gmap string Q)))
  : list Row * option exn :=
  insert_rows hotkey_list perfInfo_responses 0 [].

(** The number stored under two keys, when both are there. *)
Definition num (d : gmap string (gmap string Q)) (k1 k2 : string) : option Q :=
  inner ← d !! k1; inner !! k2.

(** A machine and a demand it meets, without GPU requirement. *)
Definition example_details : gmap string (gmap string Q) :=
  {[ "cpu"%string := {[ "count"%string := 8%Q ]};
     "gpu"%string := {[ "capacity"%string := 24%Q ]};
     "hard_disk"%string := {[ "free"%string := 500%Q ]};
     "ram"%string := {[ "available"%string := 64%Q ]} ]}.

Definition example_required : gmap string (gmap string Q) :=
  {[ "cpu"%string := {[ "count"%string := 4%Q ]};
     "gpu"%string := ∅;
     "hard_disk"%string := {[ "capacity"%string := 100%Q ]};
     "ram"%string := {[ "capacity"%string := 16%Q ]} ]}.

End MinerDb.

(** ** Miner: request filters and main loop of [neurons/miner.py] *)

Module Miner.

(** [l.index(x)]: the first position of [x], or [ValueError]. *)
Fixpoint list_index (l : list string) (x : string) : call nat :=
  match l with
  | [] => Raises ValueError
  | y :: rest =>
      if String.eqb y x then Returns 0%nat
      else match list_index rest x with
           | Returns i => Returns (S i)
           | Raises e => Raises e
           end
  end.

(** [metagraph.S[index]]. *)
Definition stake_at (S : list Q) (index : nat) : call Q :=
  match S !! index with
  | Some q => Returns q
  | None => Raises IndexError
  end.

(** [base_blacklist]: [hotkeys] and [S] are [metagraph.hotkeys] and
    [metagraph.S], [whitelist] is [whitelisted_hotkeys_set]. *)
Definition base_blacklist (hotkeys : list string) (S : list Q)
    (whitelist : gset string) (caller : string) : call (bool * string) :=
  if bool_decide (caller ∉ hotkeys) then Returns (true, "Unrecognized hotkey"%string)
  else
    match list_index hotkeys caller with
    | Raises e => Raises e
    | Returns index =>
        match stake_at S index with
        | Raises e => Raises e
        | Returns stake =>
            if MinerDb.lt_num stake 1024 then Returns (true, "Not enough stake!"%string)
            else if (0 <? size whitelist)%nat && bool_decide (caller ∉ whitelist)
            then Returns (true, "Not whitelisted"%string)
            else Returns (false, "Hotkey recognized!"%string)
        end
    end.

(** [base_priority]: the stake of the caller. *)
Definition base_priority (hotkeys : list string) (S : list Q) (caller : string)
  : call Q :=
  match list_index hotkeys caller with
  | Raises e => Raises e
  | Returns caller_uid => stake_at S caller_uid
  end.

(** [isinstance(e, Exception)]: [KeyboardInterrupt] derives from
    [BaseException] only, as may a class given by name and bases. *)
Definition is_Exception (e : exn) : bool :=
  match e with
  | KeyboardInterrupt => false
  | OtherException name bases => derives_from "Exception" name bases
  | _ => true
  end.

(** The exceptions that reach the second [except] clause of the loop and
    are caught there. *)
Definition caught_as_Exception (e : exn) : bool :=
  negb (is_KeyboardInterrupt e) && is_Exception e.

Inductive miner_event :=
| Refreshed (step : Z)        (* metagraph fetched and the status line logged *)
| Updated (step : Z)          (* compute.util.try_update() returned *)
| MinerSlept (step : Z)
| MinerError (e : exn)        (* bt.logging.error(traceback) *)
| AxonStopped.

Record MinerState := mkMiner {
  step : Z;
  miner_log : list miner_event
}.

(** What the collaborators do during one iteration, if they are called. *)
Record MinerEnv := mkMinerEnv {
  refresh_metagraph : call unit;
  try_update : call unit
}.

Inductive miner_status :=
| MinerRunning (s : MinerState)
| MinerStopped (s : MinerState)            (* break after KeyboardInterrupt *)
| MinerCrashed (e : exn) (s : MinerState).

Definition miner_say (e : miner_event) (s : MinerState) : MinerState :=
  mkMiner (step s) (miner_log s ++ [e]).

(** The body of the [try]: the state it reaches and the exception that
    ended it, if any. *)
Definition miner_body (auto_update : bool) (env : MinerEnv) (s : MinerState)
  : MinerState * option exn :=
  let after_refresh :=
    if step s mod 5 =? 0 then
      match refresh_metagraph env with
      | Returns _ => (miner_say (Refreshed (step s)) s, None)
      | Raises e => (s, Some e)
      end
    else (s, None) in
  match after_refresh with
  | (s1, Some e) => (s1, Some e)
  | (s1, None) =>
      let after_update :=
        if (step s mod 30 =? 0) && auto_update then
          match try_update env with
          | Returns _ => (miner_say (Updated (step s)) s1, None)
          | Raises e => (s1, Some e)
          end
        else (s1, None) in
      match after_update with
      | (s2, Some e) => (s2, Some e)
      | (s2, None) =>
          (miner_say (MinerSlept (step s)) (mkMiner (step s + 1) (miner_log s2)), None)
      end
  end.

(** One iteration of [while True] with its two [except] clauses. *)
Definition miner_iteration (auto_update : bool) (env : MinerEnv) (s : MinerState)
  : miner_status :=
  match miner_body auto_update env s with
  | (s', None) => MinerRunning s'
  | (s', Some e) =>
      if is_KeyboardInterrupt e then MinerStopped (miner_say AxonStopped s')
      else if is_Exception e then MinerRunning (miner_say (MinerError e) s')
      else MinerCrashed e s'
  end.

Fixpoint miner_run (auto_update : bool) (envs : list MinerEnv) (s : MinerState)
  : miner_status :=
  match envs with
  | [] => MinerRunning s
  | env :: rest =>
      match miner_iteration auto_update env s with
      | MinerRunning s' => miner_run auto_update rest s'
      | st => st
      end
  end.

Definition miner_exceptions (env : MinerEnv) : list exn :=
  Orchestrator.raised_by (refresh_metagraph env)
  ++ Orchestrator.raised_by (try_update env).

End Miner.

(** ** A program logic for the loop body *)

Module LoopLogic.

(** [triple P m Q E]: started in a state satisfying [P], the computation
    ends normally in a state satisfying [Q], or leaves by an exception or
    by [continue] in a state satisfying [E]. *)
Definition triple {A} (P : Orchestrator.LoopState → Prop) (m : Orchestrator.M A)
    (Q : A → Orchestrator.LoopState → Prop) (E : Orchestrator.LoopState → Prop) : Prop :=
  ∀ s, P s →
    match m s with
    | Orchestrator.Done a s' => Q a s'
    | Orchestrator.Raised _ s' => E s'
    | Orchestrator.Continue s' => E s'
    end.

(** [I] holds in whatever way the computation ends. *)
Definition inv {A} (I : Orchestrator.LoopState → Prop) (m : Orchestrator.M A) : Prop :=
  triple I m (fun _ => I) I.

(** The blocks at which a commit call returned, oldest first. *)
Definition commit_block (e : Orchestrator.log_event) : option Z :=
  match e with
  | Orchestrator.CommitAttempt b _ => Some b
  | _ => None
  end.

Definition commit_blocks (l : list Orchestrator.log_event) : list Z :=
  omap commit_block l.

(** Any two blocks of the list, taken in order, are more than [rate]
    apart. *)
Fixpoint spaced (rate : Z) (bs : list Z) : Prop :=
  match bs with
  | [] => True
  | b :: rest => Forall (fun c => rate < c - b) rest ∧ spaced rate rest
  end.

(** No commit is logged for a block after [last_updated_block], and the
    logged commits are spaced. *)
Definition commits_ok (rate : Z) (s : Orchestrator.LoopState) : Prop :=
  Forall (fun b => b ≤ Orchestrator.last_updated_block s)
         (commit_blocks (Orchestrator.log s)) ∧
  spaced rate (commit_blocks (Orchestrator.log s)).

(** A state predicate that ignores the three schedule locals and
    [block_next_set_weights], and log entries that are not commits. *)
Definition stable (I : Orchestrator.LoopState → Prop) : Prop :=
  (∀ s a b c d, I s →
     I (Orchestrator.mkLoop a b c d (Orchestrator.last_updated_block s)
          (Orchestrator.blocks_done s) (Orchestrator.log s))) ∧
  (∀ s e, commit_block e = None → I s → I (Orchestrator.append_log e s)).

End LoopLogic.

(** ** Notions used to state properties of the deduplication *)

(** The loop invariant without any assumption on the uids: the addresses
    of the dictionary are in the set and pairwise distinct. *)
Definition dedup_inv (seen : gset string) (d : gmap Z AxonInfo) : Prop :=
  (∀ u a, d !! u = Some a → ip a ∈ seen) ∧
  (∀ u1 u2 a1 a2, d !! u1 = Some a1 → d !! u2 = Some a2 → ip a1 = ip a2 → u1 = u2).

(** The set of addresses carried by a candidate list. *)
Definition addresses (l : list (Z * AxonInfo)) : gset string :=
  list_to_set ((fun p => ip p.2) <$> l).

(** * Properties *)

(** ** Registry lifecycle *)

Lemma needs_resync_true (miners : gmap Z string) (uid : Z) (hk : string) :
  Registry.needs_resync miners uid hk = true ↔
  miners ≠ ∅ ∧ miners !! uid ≠ Some hk.
Proof.
  unfold Registry.needs_resync, Registry.miners_items_to_set, dict_truthy, set_truthy.
  destruct (decide (miners = ∅)) as [Heq|Hne].
  - rewrite bool_decide_eq_false_2 by (intros Hx; by apply Hx).
    split; [done|]. by intros [Hx _].
  - rewrite bool_decide_eq_true_2 by done.
    rewrite andb_true_iff, !bool_decide_eq_true.
    rewrite elem_of_list_to_set, elem_of_map_to_list.
    split.
    + intros [_ Hl]. split; done.
    + intros [_ Hl]. split; [|done].
      destruct (map_choose miners Hne) as (k & v & Hkv).
      intros Hempty.
      assert (Hin : (k, v) ∈ (list_to_set (map_to_list miners) : gset (Z * string))).
      { rewrite elem_of_list_to_set. by apply elem_of_map_to_list. }
      rewrite Hempty in Hin. set_solver.
Qed.

Lemma needs_resync_empty (uid : Z) (hk : string) :
  Registry.needs_resync ∅ uid hk = false.
Proof.
  apply not_true_is_false. rewrite needs_resync_true.
  intros [Hne _]. by apply Hne.
Qed.

Lemma sync_loop_app (m : gmap Z string) (l1 l2 : list (Z * AxonInfo)) :
  Registry.sync_loop m (l1 ++ l2) =
  let '(m1, e1) := Registry.sync_loop m l1 in
  let '(m2, e2) := Registry.sync_loop m1 l2 in
  (m2, e1 ++ e2).
Proof.
  revert m. induction l1 as [|[u a] l1 IH]; intros m; simpl.
  - by destruct (Registry.sync_loop m l2).
  - destruct (Registry.sync_one m u a) as [m1 e1].
    rewrite IH.
    destruct (Registry.sync_loop m1 l1) as [m2 e2].
    destruct (Registry.sync_loop m2 l2) as [m3 e3].
    by rewrite app_assoc.
Qed.

Lemma events_of_app (uid : Z) (e1 e2 : list Registry.db_event) :
  Registry.events_of uid (e1 ++ e2) =
  Registry.events_of uid e1 ++ Registry.events_of uid e2.
Proof. unfold Registry.events_of. apply List.filter_app. Qed.

(** An entry for another uid leaves this uid's binding and history alone. *)
Lemma sync_one_other (m : gmap Z string) (uid u : Z) (a : AxonInfo) :
  u ≠ uid →
  (Registry.sync_one m u a).1 !! uid = m !! uid ∧
  Registry.events_of uid (Registry.sync_one m u a).2 = [].
Proof.
  intros Hne. unfold Registry.sync_one.
  destruct (Registry.needs_resync m u (hotkey a)); simpl; [|done].
  split; [by rewrite lookup_insert_ne|].
  rewrite events_of_app.
  destruct (m !! u); simpl; rewrite !bool_decide_eq_false_2 by done; done.
Qed.

Lemma sync_loop_other (uid : Z) (l : list (Z * AxonInfo)) (m : gmap Z string) :
  uid ∉ l.*1 →
  (Registry.sync_loop m l).1 !! uid = m !! uid ∧
  Registry.events_of uid (Registry.sync_loop m l).2 = [].
Proof.
  revert m. induction l as [|[u a] l IH]; intros m Hnotin; simpl; [done|].
  simpl in Hnotin. apply not_elem_of_cons in Hnotin as [Hne Hnotin].
  destruct (sync_one_other m uid u a) as [Hm He]; [done|].
  destruct (Registry.sync_one m u a) as [m1 e1]; simpl in *.
  destruct (IH m1 Hnotin) as [Hm' He'].
  destruct (Registry.sync_loop m1 l) as [m2 e2]; simpl in *.
  split; [congruence|].
  by rewrite events_of_app, He, He'.
Qed.

(** The entry of a known uid under a new hotkey: one purge of the old
    binding, then one upsert of the new one. *)
Lemma sync_one_rebind (m : gmap Z string) (uid : Z) (a : AxonInfo) (old : string) :
  m !! uid = Some old → hotkey a ≠ old →
  Registry.sync_one m uid a =
  (<[uid := hotkey a]> m, [Registry.Purge uid old; Registry.Upsert uid (hotkey a)]).
Proof.
  intros Hm Hne. unfold Registry.sync_one.
  assert (Registry.needs_resync m uid (hotkey a) = true) as ->.
  { apply needs_resync_true. split; [|congruence].
    intros ->. by rewrite lookup_empty in Hm. }
  by rewrite Hm.
Qed.

(** C6: when the known-miners map binds [uid] to hotkey [A] and the
    snapshot (one entry per uid) holds [uid] with a different hotkey [B],
    the database calls about [uid] are exactly one purge of [(uid, A)]
    followed by one upsert of [(uid, B)], and the map ends with [uid]
    bound to [B]. *)
Theorem sync_miners_info_rebind
    (miners : gmap Z string) (l : list (Z * AxonInfo))
    (uid : Z) (axon : AxonInfo) (A : string) :
  miners !! uid = Some A →
  (uid, axon) ∈ l →
  NoDup l.*1 →
  hotkey axon ≠ A →
  Registry.events_of uid (Registry.sync_miners_info miners l).2
    = [Registry.Purge uid A; Registry.Upsert uid (hotkey axon)] ∧
  (Registry.sync_miners_info miners l).1 !! uid = Some (hotkey axon).
Proof.
  intros Hm Hin Hnd Hne.
  assert (Registry.sync_miners_info miners l = Registry.sync_loop miners l) as ->.
  { by destruct l. }
  apply list_elem_of_split in Hin as (l1 & l2 & ->).
  rewrite fmap_app, fmap_cons in Hnd. simpl in Hnd.
  apply NoDup_app in Hnd as (_ & Hdisj & Hnd2).
  apply NoDup_cons in Hnd2 as [Hnot2 _].
  assert (Hnot1 : uid ∉ l1.*1).
  { intros Hx. apply (Hdisj uid Hx). left. }
  rewrite sync_loop_app.
  destruct (sync_loop_other uid l1 miners Hnot1) as [Hm1 He1].
  destruct (Registry.sync_loop miners l1) as [m1 e1]; simpl in *.
  rewrite Hm in Hm1.
  rewrite (sync_one_rebind m1 uid axon A Hm1 Hne).
  destruct (sync_loop_other uid l2 (<[uid := hotkey axon]> m1) Hnot2) as [Hm2 He2].
  destruct (Registry.sync_loop (<[uid := hotkey axon]> m1) l2) as [m2 e2]; simpl in *.
  split.
  - rewrite events_of_app, He1. simpl.
    rewrite !bool_decide_eq_true_2 by done.
    by rewrite He2.
  - by rewrite Hm2, lookup_insert_eq.
Qed.

(** The specification's scenario: uid 5, known as "A", seen as "B". *)
Lemma sync_miners_info_rebind_witness :
  Registry.events_of 5
    (Registry.sync_miners_info {[5 := "A"%string]}
       [(5, mkAxon "10.0.0.1" 8091 "B" "ck" 1)]).2
    = [Registry.Purge 5 "A"; Registry.Upsert 5 "B"] ∧
  (Registry.sync_miners_info {[5 := "A"%string]}
     [(5, mkAxon "10.0.0.1" 8091 "B" "ck" 1)]).1 !! 5 = Some "B"%string.
Proof.
  apply (sync_miners_info_rebind {[5 := "A"%string]}
           [(5, mkAxon "10.0.0.1" 8091 "B" "ck" 1)] 5
           (mkAxon "10.0.0.1" 8091 "B" "ck" 1) "A"%string).
  - reflexivity.
  - left.
  - simpl. apply NoDup_singleton.
  - simpl. discriminate.
Defined.

(** C10: with an empty known-miners map, reconciliation makes no database
    call at all and the map stays empty, whatever the queryable set. *)
Theorem sync_miners_info_empty_map (l : list (Z * AxonInfo)) :
  Registry.sync_miners_info ∅ l = (∅, []).
Proof.
  assert (Hloop : Registry.sync_loop ∅ l = (∅, [])).
  { induction l as [|[u a] l IH]; simpl; [done|].
    unfold Registry.sync_one. rewrite needs_resync_empty.
    by rewrite IH. }
  by destruct l.
Qed.

(** ** Deduplication stage *)

(** The loop invariant: what the dictionary holds at the end is what it
    held before, plus the entries of [l] whose address is neither in the
    set already nor carried by an earlier entry of [l]. *)
Lemma filter_loop_lookup (l : list (Z * AxonInfo)) :
  ∀ (seen : gset string) (d : gmap Z AxonInfo),
  NoDup l.*1 →
  (∀ u, u ∈ l.*1 → d !! u = None) →
  ∀ uid ax,
  Dedup.filter_loop seen d l !! uid = Some ax ↔
  d !! uid = Some ax ∨
  ∃ i, l !! i = Some (uid, ax) ∧ (ip ax ∉ seen) ∧ Dedup.first_with_ip l i ax.
Proof.
  induction l as [|[u a] rest IH]; intros seen d Hnd Hfresh uid ax; simpl.
  - split; [by left|]. intros [?|(i & Hi & _)]; [done|].
    by rewrite lookup_nil in Hi.
  - simpl in Hnd. apply NoDup_cons in Hnd as [Hu Hnd].
    assert (Hdu : d !! u = None) by (apply Hfresh; simpl; left).
    case_bool_decide as Hip.
    + rewrite IH; [|done|].
      2:{ intros u' Hu'. rewrite lookup_insert_ne; [|by intros ->].
          apply Hfresh. simpl. by right. }
      split.
      * intros [Hins|(i & Hi & Hseen & Hfirst)].
        -- destruct (decide (u = uid)) as [->|Hneq].
           ++ rewrite lookup_insert_eq in Hins. injection Hins as ->.
              right. exists 0%nat. split; [done|]. split; [done|].
              intros j p Hj. lia.
           ++ rewrite lookup_insert_ne in Hins by done. by left.
        -- right. exists (S i). split; [done|].
           split; [set_solver|].
           intros [|j] p Hj Hp; simpl in Hp.
           ++ injection Hp as <-. simpl. set_solver.
           ++ apply (Hfirst j p); [lia|done].
      * intros [Hd|(i & Hi & Hseen & Hfirst)].
        -- left. rewrite lookup_insert_ne; [done|]. intros ->. congruence.
        -- destruct i as [|i]; simpl in Hi.
           ++ injection Hi as -> ->. left. by rewrite lookup_insert_eq.
           ++ right. exists i. split; [done|].
              assert (ip a ≠ ip ax) by (apply (Hfirst 0%nat (u, a)); [lia|done]).
              split; [set_solver|].
              intros j p Hj Hp. apply (Hfirst (S j) p); [lia|done].
    + rewrite IH; [|done|].
      2:{ intros u' Hu'. apply Hfresh. simpl. by right. }
      split.
      * intros [Hd|(i & Hi & Hseen & Hfirst)]; [by left|].
        right. exists (S i). split; [done|]. split; [done|].
        intros [|j] p Hj Hp; simpl in Hp.
        -- injection Hp as <-. simpl. intros Heq. apply Hseen. by rewrite <- Heq.
        -- apply (Hfirst j p); [lia|done].
      * intros [Hd|(i & Hi & Hseen & Hfirst)]; [by left|].
        destruct i as [|i]; simpl in Hi.
        -- injection Hi as -> ->. done.
        -- right. exists i. split; [done|]. split; [done|].
           intros j p Hj Hp. apply (Hfirst (S j) p); [lia|done].
Qed.

(** The entries of the result, characterised. *)
Lemma filter_axons_lookup (l : list (Z * AxonInfo)) (uid : Z) (ax : AxonInfo) :
  NoDup l.*1 →
  Dedup.filter_axons l !! uid = Some ax ↔
  ∃ i, l !! i = Some (uid, ax) ∧ Dedup.first_with_ip l i ax.
Proof.
  intros Hnd. unfold Dedup.filter_axons.
  rewrite (filter_loop_lookup l ∅ ∅ Hnd (fun u _ => lookup_empty u)).
  rewrite lookup_empty. split.
  - intros [?|(i & Hi & _ & Hf)]; [done|]. by exists i.
  - intros (i & Hi & Hf). right. exists i. split; [done|]. split; [set_solver|done].
Qed.

(** C8: for a candidate list with one entry per uid, the deduplication
    stage keeps an entry exactly when no earlier entry of the list carries
    the same address, and no two distinct uids of the result share an
    address. *)
Theorem filter_axons_first_per_address (l : list (Z * AxonInfo)) :
  NoDup l.*1 →
  (∀ uid ax,
     Dedup.filter_axons l !! uid = Some ax ↔
     ∃ i, l !! i = Some (uid, ax) ∧
          ∀ j p, (j < i)%nat → l !! j = Some p → ip p.2 ≠ ip ax) ∧
  (∀ u1 u2 a1 a2,
     Dedup.filter_axons l !! u1 = Some a1 →
     Dedup.filter_axons l !! u2 = Some a2 →
     ip a1 = ip a2 → u1 = u2).
Proof.
  intros Hnd. split.
  - intros uid ax. apply (filter_axons_lookup l uid ax Hnd).
  - intros u1 u2 a1 a2 H1 H2 Hip.
    apply filter_axons_lookup in H1 as (i1 & Hi1 & Hf1); [|done].
    apply filter_axons_lookup in H2 as (i2 & Hi2 & Hf2); [|done].
    destruct (Nat.lt_trichotomy i1 i2) as [Hlt|[->|Hgt]].
    + exfalso. by apply (Hf2 i1 (u1, a1) Hlt Hi1).
    + congruence.
    + exfalso. by apply (Hf1 i2 (u2, a2) Hgt Hi2).
Qed.

(** Three candidates, the third repeating the address of the first. *)
Lemma filter_axons_first_per_address_witness :
  let l := [(1, mkAxon "10.0.0.1" 8091 "hk1" "ck1" 1);
            (2, mkAxon "10.0.0.2" 8091 "hk2" "ck2" 1);
            (3, mkAxon "10.0.0.1" 8092 "hk3" "ck3" 1)] in
  Dedup.filter_axons l !! 1 = Some (mkAxon "10.0.0.1" 8091 "hk1" "ck1" 1) ∧
  Dedup.filter_axons l !! 3 = None ∧
  (∀ u1 u2 a1 a2,
     Dedup.filter_axons l !! u1 = Some a1 →
     Dedup.filter_axons l !! u2 = Some a2 →
     ip a1 = ip a2 → u1 = u2).
Proof.
  intros l.
  assert (Hnd : NoDup l.*1).
  { simpl. repeat (apply NoDup_cons; split; [set_solver|]). apply NoDup_nil_2. }
  split; [reflexivity|]. split; [reflexivity|].
  exact (proj2 (filter_axons_first_per_address l Hnd)).
Defined.

(** ** Difficulty controller *)

(** The three branches of the conditional expression. *)
Lemma adjust_cases (current : Z) (failed : Q) :
  ((failed == 0)%Q → Difficulty.adjust current failed = current + 1) ∧
  ((2 <= failed)%Q → Difficulty.adjust current failed = current - 1) ∧
  (¬ (failed == 0)%Q → ¬ (2 <= failed)%Q →
   Difficulty.adjust current failed = current).
Proof.
  unfold Difficulty.adjust. repeat split.
  - intros H. apply Qeq_bool_iff in H. by rewrite H.
  - intros H.
    destruct (Qeq_bool failed 0) eqn:E.
    + apply Qeq_bool_iff in E. rewrite E in H. exfalso. revert H. by compute.
    + apply Qle_bool_iff in H. by rewrite H.
  - intros H0 H2.
    destruct (Qeq_bool failed 0) eqn:E; [apply Qeq_bool_iff in E; contradiction|].
    destruct (Qle_bool 2 failed) eqn:E2; [apply Qle_bool_iff in E2; contradiction|].
    done.
Qed.

(** One recalibration moves the difficulty by at most one step. *)
Lemma adjust_within_one (current : Z) (failed : Q) :
  Z.abs (Difficulty.adjust current failed - current) ≤ 1.
Proof.
  unfold Difficulty.adjust.
  destruct (Qeq_bool failed 0); [lia|].
  destruct (Qle_bool 2 failed); lia.
Qed.

(** For a miner with at least 20 lifetime successes the result is the
    adjusted current difficulty: nothing else is applied to it. *)
Lemma calc_difficulty_known (D : Z) (fd : Q) (stats : gmap Z Difficulty.Stat)
    (uid : Z) (stat : Difficulty.Stat) :
  stats !! uid = Some stat →
  (20 <= Difficulty.force_to_float_or_default (Difficulty.challenge_successes stat) fd)%Q →
  Difficulty.calc_difficulty D fd stats uid =
  Difficulty.adjust (Difficulty.current_of D stat)
    (Difficulty.force_to_float_or_default (Difficulty.last_20_challenge_failed stat) fd).
Proof.
  intros Hs H20. unfold Difficulty.calc_difficulty. rewrite Hs.
  apply Qle_bool_iff in H20. by rewrite H20.
Qed.

(** C3: a miner with 20 lifetime successes, two failures among its last
    20 challenges and a last-20 average equal to the minimum difficulty is
    given the minimum minus one: the decrement is not floored. *)
Theorem calc_difficulty_below_minimum (D : Z) (fd : Q) (uid : Z) :
  let stat := Difficulty.mkStat (Some (inject_Z D)) (Some 2%Q) (Some 20%Q) in
  Difficulty.current_of D stat = D ∧
  Difficulty.calc_difficulty D fd {[uid := stat]} uid = D - 1 ∧
  Difficulty.calc_difficulty D fd {[uid := stat]} uid < D.
Proof.
  intros stat.
  assert (Hc : Difficulty.current_of D stat = D).
  { unfold Difficulty.current_of, stat. simpl. apply Qceiling_Z. }
  assert (Hd : Difficulty.calc_difficulty D fd {[uid := stat]} uid = D - 1).
  { unfold Difficulty.calc_difficulty. rewrite lookup_singleton_eq.
    rewrite Hc. reflexivity. }
  rewrite Hd. repeat split; [done|lia].
Qed.

(** ** Version stage *)

(** The decision to skip the stage reads the number of workers only. *)
Lemma gate_skips_size_only (percent : Z → Z → option Q) (threshold : Q)
    (total : Z) (d1 d2 : gmap Z AxonInfo) :
  size d1 = size d2 →
  VersionGate.gate_skips percent threshold total d1 =
  VersionGate.gate_skips percent threshold total d2.
Proof. intros Hsz. unfold VersionGate.gate_skips. by rewrite Hsz. Qed.

Lemma filter_axon_version_cases (percent : Z → Z → option Q) (threshold : Q)
    (latest : option Z) (total : Z) (d : gmap Z AxonInfo) :
  VersionGate.filter_axon_version percent threshold latest total d =
  match VersionGate.gate_skips percent threshold total d with
  | None => None
  | Some true => Some d
  | Some false => Some (VersionGate.keep_recent latest d)
  end.
Proof.
  unfold VersionGate.filter_axon_version.
  by destruct (VersionGate.gate_skips percent threshold total d) as [[]|].
Qed.

(** What the specification asks for on the two example sets, for any
    maximum outdated share from 10 up to (not including) 90 per cent. *)
Lemma spec_filter_on_examples (p : Z) :
  10 ≤ p < 90 →
  VersionGate.spec_filter_axon_version p (Some 150) VersionGate.one_outdated
    = VersionGate.keep_recent (Some 150) VersionGate.one_outdated ∧
  VersionGate.spec_filter_axon_version p (Some 150) VersionGate.nine_outdated
    = VersionGate.nine_outdated.
Proof.
  intros Hp. unfold VersionGate.spec_filter_axon_version.
  assert (size VersionGate.one_outdated = 10%nat) as -> by reflexivity.
  assert (size VersionGate.nine_outdated = 10%nat) as -> by reflexivity.
  assert (VersionGate.spec_outdated (Some 150) VersionGate.one_outdated = 1%nat)
    as -> by reflexivity.
  assert (VersionGate.spec_outdated (Some 150) VersionGate.nine_outdated = 9%nat)
    as -> by reflexivity.
  split.
  - destruct (Z.ltb_spec (p * Z.of_nat 10) (100 * Z.of_nat 1)); [lia|done].
  - destruct (Z.ltb_spec (p * Z.of_nat 10) (100 * Z.of_nat 9)); [done|lia].
Qed.

Lemma one_outdated_changes :
  VersionGate.keep_recent (Some 150) VersionGate.one_outdated ≠ VersionGate.one_outdated.
Proof.
  intros H. apply (f_equal (fun m => version <$> m !! 0)) in H.
  vm_compute in H. discriminate.
Qed.

Lemma nine_outdated_changes :
  VersionGate.keep_recent (Some 150) VersionGate.nine_outdated ≠ VersionGate.nine_outdated.
Proof.
  intros H. apply (f_equal (fun m => version <$> m !! 1)) in H.
  vm_compute in H. discriminate.
Qed.

(** C4: whatever [percent] computes, whatever the threshold and the miner
    count, the stage cannot both drop the single outdated worker of a set
    of ten (10 per cent outdated) and leave alone a set of ten with nine
    outdated workers (90 per cent), as the specification's stage with a
    maximum of 25 per cent does: both sets have the same size, so both get
    the same decision. *)
Theorem filter_axon_version_ignores_versions
    (percent : Z → Z → option Q) (threshold : Q) (total : Z) :
  ¬ (VersionGate.filter_axon_version percent threshold (Some 150) total
       VersionGate.one_outdated
     = Some (VersionGate.spec_filter_axon_version 25 (Some 150) VersionGate.one_outdated)
     ∧
     VersionGate.filter_axon_version percent threshold (Some 150) total
       VersionGate.nine_outdated
     = Some (VersionGate.spec_filter_axon_version 25 (Some 150) VersionGate.nine_outdated)).
Proof.
  destruct (spec_filter_on_examples 25) as [-> ->]; [lia|].
  rewrite !filter_axon_version_cases.
  rewrite (gate_skips_size_only percent threshold total
             VersionGate.nine_outdated VersionGate.one_outdated) by reflexivity.
  destruct (VersionGate.gate_skips percent threshold total VersionGate.one_outdated)
    as [[]|]; intros [H1 H2].
  - injection H1 as H1. by apply one_outdated_changes.
  - injection H2 as H2. by apply nine_outdated_changes.
  - discriminate.
Qed.

(** ** Blacklist stage *)

(** No check ever removes an entry from any of the four sets. *)
Lemma is_blacklisted_grows (st : Blacklist.Lists) (n : NeuronInfoLite) :
  Blacklist.lists_incl st (Blacklist.is_blacklisted st n).2.
Proof.
  unfold Blacklist.is_blacklisted, Blacklist.lists_incl.
  repeat case_bool_decide; simpl; repeat split; set_solver.
Qed.

(** The set of blacklisted coldkeys is never written. *)
Lemma is_blacklisted_coldkeys_fixed (st : Blacklist.Lists) (n : NeuronInfoLite) :
  Blacklist.blacklist_coldkeys (Blacklist.is_blacklisted st n).2
    = Blacklist.blacklist_coldkeys st ∧
  Blacklist.exploiters_coldkeys (Blacklist.is_blacklisted st n).2
    = Blacklist.exploiters_coldkeys st.
Proof.
  unfold Blacklist.is_blacklisted. by repeat case_bool_decide.
Qed.

(** C5: with hotkey "hk1" blacklisted, a neuron (coldkey "ck1", hotkey
    "hk1") is reported as blacklisted, but its coldkey lands in the set of
    blacklisted hotkeys; the set of blacklisted coldkeys stays empty, and in
    the next round a neuron with the same coldkey and another hotkey is not
    blacklisted and enters the queryable list. *)
Theorem is_blacklisted_coldkey_not_recorded :
  let st0 := Blacklist.mkLists ∅ {["hk1"%string]} ∅ ∅ in
  let r1 := Blacklist.is_blacklisted st0 (mkNeuron "ck1" "hk1") in
  let r2 := Blacklist.is_blacklisted r1.2 (mkNeuron "ck1" "hk2") in
  let axon7 := mkAxon "10.0.0.7" 8091 "hk2" "ck1" 150 in
  r1.1 = true ∧
  Blacklist.blacklist_coldkeys r1.2 = ∅ ∧
  Blacklist.blacklist_hotkeys r1.2 = {["ck1"; "hk1"]}%string ∧
  r2.1 = false ∧
  (Blacklist.get_valid_queryable r1.2
     [Blacklist.mkSlot 7 (mkNeuron "ck1" "hk2") axon7 0%Q]).1 = [(7, axon7)].
Proof.
  simpl. repeat split.
Qed.

(** ** Challenge dispatcher *)

(** Each iteration of the outer loop replaces [self.threads]: after the
    loop it holds the threads of the last slice only. *)
Lemma batch_loop_threads (q : gmap Z AxonInfo) (uids : list Z) (B : nat)
    (starts : list nat) (threads reqs : list Z) :
  (Dispatcher.batch_loop q uids B starts threads reqs).1 =
  match last starts with
  | Some i => Dispatcher.build_threads q (Dispatcher.slice uids i (i + B))
  | None => threads
  end.
Proof.
  revert threads reqs. induction starts as [|i rest IH]; intros threads reqs; [done|].
  change (Dispatcher.batch_loop q uids B (i :: rest) threads reqs) with
    (Dispatcher.batch_loop q uids B rest
       (Dispatcher.build_threads q (Dispatcher.slice uids i (i + B)))
       (reqs ++ Dispatcher.build_threads q (Dispatcher.slice uids i (i + B)))).
  rewrite IH. destruct rest as [|j rest]; [reflexivity|].
  rewrite last_cons_cons.
  destruct (last (j :: rest)) eqn:E; [reflexivity|].
  by apply last_None in E.
Qed.

(** The thread events of a round are the starts and joins of the threads
    left in [self.threads] by the outer loop: those of the last slice. *)
Lemma dispatch_events (threads0 uids : list Z) (q : gmap Z AxonInfo) (B : nat)
    (threads reqs : list Z) (events : list Dispatcher.thread_event) :
  Dispatcher.dispatch threads0 uids q B = Returns (threads, reqs, events) →
  ∃ starts, Dispatcher.py_range (length uids) B = Some starts ∧
  threads = match last starts with
            | Some i => Dispatcher.build_threads q (Dispatcher.slice uids i (i + B))
            | None => threads0
            end ∧
  events = Dispatcher.start_and_join threads.
Proof.
  unfold Dispatcher.dispatch. intros H.
  destruct (Dispatcher.py_range (length uids) B) as [starts|]; [|done].
  exists starts. split; [done|].
  pose proof (batch_loop_threads q uids B starts threads0 []) as Hl.
  destruct (Dispatcher.batch_loop q uids B starts threads0 []) as [ths rq].
  simpl in Hl.
  assert (Returns (ths, rq, Dispatcher.start_and_join ths)
          = Returns (threads, reqs, events)) as Heq.
  { destruct starts, threads0; done. }
  injection Heq as <- <- <-. by rewrite Hl.
Qed.

(** C1: with batch size 2 and the five queryable workers 0..4, a
    challenge is generated for all five, but the only threads started and
    joined are those of the last slice, the single worker 4; the
    specification's dispatcher runs three batches of sizes 2, 2 and 1. *)
Theorem dispatch_five_workers_batch_two :
  Dispatcher.dispatch [] Dispatcher.five_uids Dispatcher.five_workers 2
    = Returns ([4], [0; 1; 2; 3; 4], [Dispatcher.Start 4; Dispatcher.Join 4]) ∧
  Dispatcher.spec_batches 5 2 Dispatcher.five_uids = [[0; 1]; [2; 3]; [4]] ∧
  Dispatcher.spec_dispatch 2 Dispatcher.five_uids
    = [Dispatcher.Start 0; Dispatcher.Start 1; Dispatcher.Join 0; Dispatcher.Join 1;
       Dispatcher.Start 2; Dispatcher.Start 3; Dispatcher.Join 2; Dispatcher.Join 3;
       Dispatcher.Start 4; Dispatcher.Join 4].
Proof.
  split; [|split]; reflexivity.
Qed.

(** ** Weight scheduler *)

(** C2 (amended): when the weight step is reached with
    [current_block - last_updated_block > weights_rate_limit], scores are
    recomputed and a commit is attempted; if the commit call returns,
    whether it reports success or failure, [last_updated_block] becomes
    the current block; it keeps its value only when the score sync or the
    commit call raises. *)
Theorem weights_part_advances_on_return
    (weights_rate_limit : Z) (env : Orchestrator.TickEnv) (s : Orchestrator.LoopState) :
  weights_rate_limit
    < Orchestrator.current_block env - Orchestrator.last_updated_block s →
  match Orchestrator.sync_scores env, Orchestrator.subtensor_set_weights env with
  | Returns _, Returns result =>
      ∃ s', Orchestrator.weights_part weights_rate_limit env s = Orchestrator.Done tt s' ∧
            Orchestrator.last_updated_block s' = Orchestrator.current_block env ∧
            Orchestrator.blocks_done s' = {[Orchestrator.current_block env]} ∧
            Orchestrator.log s' = Orchestrator.log s ++
              [Orchestrator.ScoresSynced (Orchestrator.current_block env);
               Orchestrator.CommitAttempt (Orchestrator.current_block env) result]
  | Returns _, Raises e =>
      ∃ s', Orchestrator.weights_part weights_rate_limit env s = Orchestrator.Raised e s' ∧
            Orchestrator.last_updated_block s' = Orchestrator.last_updated_block s ∧
            Orchestrator.log s' = Orchestrator.log s ++
              [Orchestrator.ScoresSynced (Orchestrator.current_block env)]
  | Raises e, _ =>
      ∃ s', Orchestrator.weights_part weights_rate_limit env s = Orchestrator.Raised e s' ∧
            Orchestrator.last_updated_block s' = Orchestrator.last_updated_block s ∧
            Orchestrator.log s' = Orchestrator.log s
  end.
Proof.
  intros Hrate. apply Z.ltb_lt in Hrate.
  unfold Orchestrator.weights_part, Orchestrator.set_weights.
  unfold mbind, Orchestrator.M_bind, Orchestrator.get. rewrite Hrate. simpl.
  destruct (Orchestrator.sync_scores env) as [[]|e]; simpl.
  - destruct (Orchestrator.subtensor_set_weights env) as [result|e]; simpl.
    + eexists. split; [reflexivity|]. simpl. by rewrite <- app_assoc.
    + eexists. split; [reflexivity|]. done.
  - eexists. split; [reflexivity|]. done.
Qed.

(** A commit that reports failure at block 1101, 101 blocks after the last
    update. *)
Lemma weights_part_advances_on_return_witness :
  ∃ s', Orchestrator.weights_part 100 (Orchestrator.tick_commit_fails 1101)
          Orchestrator.mid_run = Orchestrator.Done tt s' ∧
        Orchestrator.last_updated_block s' = 1101 ∧
        Orchestrator.blocks_done s' = {[1101]} ∧
        Orchestrator.log s' =
          [Orchestrator.ScoresSynced 1101; Orchestrator.CommitAttempt 1101 false].
Proof.
  apply (weights_part_advances_on_return 100 (Orchestrator.tick_commit_fails 1101)
           Orchestrator.mid_run).
  simpl. lia.
Defined.

(** C2, as stated, fails: at block 1101 the rate-limit condition holds and
    the commit reports failure, yet [last_updated_block] moves from 1000 to
    1101; at block 1102 the condition no longer holds and no commit is
    attempted. *)
Lemma commit_failure_advances_last_updated_block :
  let env := Orchestrator.tick_commit_fails 1101 in
  let after := Orchestrator.state_of
                 (Orchestrator.iteration 100 false env Orchestrator.mid_run) in
  let later := Orchestrator.state_of
                 (Orchestrator.iteration 100 false (Orchestrator.quiet_tick 1102) after) in
  (100 <? Orchestrator.current_block env
           - Orchestrator.last_updated_block Orchestrator.mid_run) = true ∧
  Orchestrator.subtensor_set_weights env = Returns false ∧
  Orchestrator.log after =
    [Orchestrator.ScoresSynced 1101; Orchestrator.CommitAttempt 1101 false;
     Orchestrator.Slept 1101] ∧
  Orchestrator.last_updated_block Orchestrator.mid_run = 1000 ∧
  Orchestrator.last_updated_block after = 1101 ∧
  ¬ (Orchestrator.last_updated_block after
       = Orchestrator.last_updated_block Orchestrator.mid_run) ∧
  Orchestrator.log later = Orchestrator.log after ++ [Orchestrator.Slept 1102].
Proof.
  intros env after later.
  repeat split; try reflexivity.
  vm_compute. discriminate.
Qed.

(** ** Round orchestrator *)

Section BodyRules.

Variable env : Orchestrator.TickEnv.

Lemma keeps_weaken {A} (P : Orchestrator.LoopState → Prop) (m : Orchestrator.M A) :
  Orchestrator.keeps env m → Orchestrator.keeps_from env P m.
Proof. intros Hm s _ Hs. by apply Hm. Qed.

Lemma keeps_ret {A} (a : A) : Orchestrator.keeps env (mret a).
Proof. intros s _ Hs. exact Hs. Qed.

Lemma keeps_from_bind {A B} (P : Orchestrator.LoopState → Prop)
    (m : Orchestrator.M A) (k : A → Orchestrator.M B) :
  Orchestrator.keeps_from env P m → (∀ a, Orchestrator.keeps env (k a)) →
  Orchestrator.keeps_from env P (m ≫= k).
Proof.
  intros Hm Hk s HP Hs. specialize (Hm s HP Hs).
  unfold mbind, Orchestrator.M_bind.
  destruct (m s) as [a s'|e s'|s']; [|done..].
  by apply Hk.
Qed.

Lemma keeps_bind {A B} (m : Orchestrator.M A) (k : A → Orchestrator.M B) :
  Orchestrator.keeps env m → (∀ a, Orchestrator.keeps env (k a)) →
  Orchestrator.keeps env (m ≫= k).
Proof. apply keeps_from_bind. Qed.

(** Reading the state lets the continuation rely on the schedule it finds. *)
Lemma keeps_get {B} (k : Orchestrator.LoopState → Orchestrator.M B) :
  (∀ s0, Orchestrator.schedule_positive s0 →
         Orchestrator.keeps_from env (fun s => s = s0) (k s0)) →
  Orchestrator.keeps env (Orchestrator.get ≫= k).
Proof. intros Hk s _ Hs. by apply (Hk s Hs s). Qed.

Lemma keeps_when (b : bool) (m : Orchestrator.M unit) :
  Orchestrator.keeps env m → Orchestrator.keeps env (Orchestrator.when b m).
Proof. intros Hm. destruct b; [done|]. apply keeps_ret. Qed.

Lemma keeps_say (e : Orchestrator.log_event) : Orchestrator.keeps env (Orchestrator.say e).
Proof. intros s _ Hs. exact Hs. Qed.

Lemma keeps_divides (a b : Z) : b ≠ 0 → Orchestrator.keeps env (Orchestrator.divides a b).
Proof.
  intros Hb s _ Hs. unfold Orchestrator.divides.
  destruct (Z.eqb_spec b 0); [done|]. exact Hs.
Qed.

Lemma keeps_perform {A} (c : call A) :
  Orchestrator.raised_by c ⊆ Orchestrator.env_exceptions env →
  Orchestrator.keeps env (Orchestrator.perform c).
Proof.
  intros Hc s _ Hs. destruct c as [a|e]; simpl; [done|].
  split; [done|]. apply Hc. simpl. left.
Qed.

Lemma keeps_raise {A} (e : exn) :
  e ∈ Orchestrator.env_exceptions env →
  Orchestrator.keeps env (Orchestrator.raise (A := A) e).
Proof. intros He s _ Hs. by split. Qed.

Lemma keeps_continue {A} : Orchestrator.keeps env (Orchestrator.continue (A := A)).
Proof. intros s _ Hs. exact Hs. Qed.

Lemma keeps_set_blocks_done (d : gset Z) :
  Orchestrator.keeps env (Orchestrator.set_blocks_done d).
Proof. intros s _ Hs. exact Hs. Qed.

Lemma keeps_set_last_updated_block (v : Z) :
  Orchestrator.keeps env (Orchestrator.set_last_updated_block v).
Proof. intros s _ Hs. exact Hs. Qed.

Lemma keeps_set_block_next_set_weights (v : Z) :
  Orchestrator.keeps env (Orchestrator.set_block_next_set_weights v).
Proof. intros s _ Hs. exact Hs. Qed.

Lemma keeps_set_block_next_challenge (v : Z) :
  0 < v → Orchestrator.keeps env (Orchestrator.set_block_next_challenge v).
Proof. intros Hv s _ (H1 & H2 & H3). repeat split; done. Qed.

Lemma keeps_set_block_next_hardware_info (v : Z) :
  0 < v → Orchestrator.keeps env (Orchestrator.set_block_next_hardware_info v).
Proof. intros Hv s _ (H1 & H2 & H3). repeat split; done. Qed.

Lemma keeps_set_block_next_sync_status (v : Z) :
  0 < v → Orchestrator.keeps env (Orchestrator.set_block_next_sync_status v).
Proof. intros Hv s _ (H1 & H2 & H3). repeat split; done. Qed.

(** The shape shared by the three scheduled sub-rounds. *)
Lemma keeps_scheduled (f : Orchestrator.LoopState → Z)
    (g : bool → bool) (m : Orchestrator.M unit) :
  (∀ s, Orchestrator.schedule_positive s → f s ≠ 0) →
  Orchestrator.keeps env m →
  Orchestrator.keeps env
    (s ← Orchestrator.get;
     due ← Orchestrator.divides (Orchestrator.current_block env) (f s);
     Orchestrator.when (g due) m).
Proof.
  intros Hf Hm. apply keeps_get. intros s0 Hs0.
  apply keeps_weaken, keeps_bind; [by apply keeps_divides, Hf|].
  intros due. by apply keeps_when.
Qed.

End BodyRules.

Create HintDb keeps.
#[local] Hint Resolve keeps_ret keeps_say keeps_continue keeps_set_blocks_done
  keeps_set_last_updated_block keeps_set_block_next_set_weights : keeps.

Ltac keeps_perform_tac :=
  apply keeps_perform; unfold Orchestrator.env_exceptions; set_solver.

(** [m;; k]: the goal for [m] comes first. *)
Ltac keeps_seq := apply keeps_bind; [|intros ?].

(** The body raises only what a collaborator raised, and leaves the
    schedule positive. *)
Lemma body_keeps (weights_rate_limit : Z) (flag : bool) (env : Orchestrator.TickEnv) :
  Orchestrator.env_wf env →
  Orchestrator.keeps env (Orchestrator.body weights_rate_limit flag env).
Proof.
  intros [Hblock Hrand].
  unfold Orchestrator.body.
  keeps_seq; [keeps_perform_tac|].
  apply keeps_get. intros s0 Hs0. apply keeps_weaken.
  keeps_seq; [|auto with keeps].
  apply keeps_when.
  keeps_seq; [auto with keeps|].
  keeps_seq.
  { apply (keeps_scheduled env Orchestrator.block_next_challenge (fun b => b)).
    - intros ? (? & ? & ?); lia.
    - keeps_seq; [apply keeps_set_block_next_challenge; lia|].
      keeps_seq; [keeps_perform_tac|auto with keeps]. }
  keeps_seq.
  { apply (keeps_scheduled env Orchestrator.block_next_hardware_info
             (fun b => b && flag)).
    - intros ? (? & ? & ?); lia.
    - keeps_seq; [apply keeps_set_block_next_hardware_info; lia|].
      destruct (Orchestrator.hardware env) eqn:Hhw.
      + auto with keeps.
      + keeps_seq; auto with keeps.
      + apply keeps_raise. unfold Orchestrator.env_exceptions. rewrite Hhw. set_solver. }
  keeps_seq.
  { apply (keeps_scheduled env Orchestrator.block_next_sync_status (fun b => b)).
    - intros ? (? & ? & ?); lia.
    - keeps_seq; [apply keeps_set_block_next_sync_status; lia|].
      keeps_seq; [keeps_perform_tac|auto with keeps]. }
  unfold Orchestrator.weights_part, Orchestrator.set_weights.
  apply keeps_get. intros s1 Hs1. apply keeps_weaken.
  apply keeps_when.
  keeps_seq; [auto with keeps|].
  keeps_seq; [keeps_perform_tac|].
  keeps_seq; [auto with keeps|].
  keeps_seq.
  { keeps_seq; [keeps_perform_tac|auto with keeps]. }
  keeps_seq; auto with keeps.
Qed.

(** One iteration in which the collaborators raise nothing but
    [RuntimeError]s leaves the loop running. *)
Lemma iteration_survives (weights_rate_limit : Z) (flag : bool)
    (env : Orchestrator.TickEnv) (s : Orchestrator.LoopState) :
  Orchestrator.schedule_positive s →
  Orchestrator.env_wf env →
  Forall (fun e => is_RuntimeError e = true)
         (Orchestrator.env_exceptions env) →
  ∃ s', Orchestrator.iteration weights_rate_limit flag env s = Orchestrator.Running s' ∧
        Orchestrator.schedule_positive s'.
Proof.
  intros Hs Hwf Hrt.
  pose proof (body_keeps weights_rate_limit flag env Hwf s I Hs) as Hb.
  unfold Orchestrator.iteration.
  destruct (Orchestrator.body weights_rate_limit flag env s) as [[] s'|e s'|s'].
  - by exists s'.
  - destruct Hb as [Hs' He].
    rewrite Forall_forall in Hrt. rewrite (Hrt e He).
    by eexists.
  - by exists s'.
Qed.

(** The two [except] clauses, seen from the loop. *)
Lemma run_raised (weights_rate_limit : Z) (flag : bool)
    (env : Orchestrator.TickEnv) (rest : list Orchestrator.TickEnv)
    (s s' : Orchestrator.LoopState) (e : exn) :
  Orchestrator.body weights_rate_limit flag env s = Orchestrator.Raised e s' →
  Orchestrator.run weights_rate_limit flag (env :: rest) s =
    if is_RuntimeError e then
      Orchestrator.run weights_rate_limit flag rest
        (Orchestrator.append_log (Orchestrator.ErrorLogged e) s')
    else if is_KeyboardInterrupt e then
      Orchestrator.Exited (Orchestrator.append_log Orchestrator.DbClosed s')
    else Orchestrator.Crashed e s'.
Proof.
  intros Hb. simpl. unfold Orchestrator.iteration. rewrite Hb.
  destruct (is_RuntimeError e); [done|].
  by destruct (is_KeyboardInterrupt e).
Qed.

(** The two handlers of [start]: a [RuntimeError] (or an instance of a
    subclass) raised inside the loop body is logged and the loop goes on
    with the next iteration, so a run in which the collaborators raise
    nothing else never leaves the loop; [KeyboardInterrupt] closes the
    database and exits; an exception of any other class leaves [start]. *)
Theorem loop_exception_handling (weights_rate_limit : Z) (flag : bool) :
  (∀ env rest s e s',
     Orchestrator.body weights_rate_limit flag env s = Orchestrator.Raised e s' →
     Orchestrator.run weights_rate_limit flag (env :: rest) s =
       if is_RuntimeError e then
         Orchestrator.run weights_rate_limit flag rest
           (Orchestrator.append_log (Orchestrator.ErrorLogged e) s')
       else if is_KeyboardInterrupt e then
         Orchestrator.Exited (Orchestrator.append_log Orchestrator.DbClosed s')
       else Orchestrator.Crashed e s') ∧
  (∀ envs s,
     Orchestrator.schedule_positive s →
     Forall Orchestrator.env_wf envs →
     Forall (fun env => Forall (fun e => is_RuntimeError e = true)
                               (Orchestrator.env_exceptions env)) envs →
     ∃ s', Orchestrator.run weights_rate_limit flag envs s = Orchestrator.Running s').
Proof.
  split.
  - intros env rest s e s'. apply run_raised.
  - intros envs. induction envs as [|env rest IH]; intros s Hs Hwf Hrt.
    + by exists s.
    + apply Forall_cons in Hwf as [Hwf Hwfs].
      apply Forall_cons in Hrt as [Hrt Hrts].
      destruct (iteration_survives weights_rate_limit flag env s Hs Hwf Hrt)
        as (s1 & Hit & Hs1).
      simpl. rewrite Hit. by apply IH.
Qed.

(** The metagraph sync raises [RuntimeError] at block 1101, then
    [RecursionError], a subclass, at block 1102: both are logged and the
    loop is still running. *)
Lemma loop_exception_handling_witness :
  Orchestrator.run 100 false
    [Orchestrator.tick_sync_raises 1101 RuntimeError] Orchestrator.mid_run
  = Orchestrator.Running
      (Orchestrator.append_log (Orchestrator.ErrorLogged RuntimeError)
         Orchestrator.mid_run) ∧
  ∃ s', Orchestrator.run 100 false
          [Orchestrator.tick_sync_raises 1101 RuntimeError;
           Orchestrator.tick_sync_raises 1102
             (OtherException "RecursionError"
                ["RuntimeError"; "Exception"; "BaseException"]%string)]
          Orchestrator.mid_run = Orchestrator.Running s'.
Proof.
  split.
  - apply (proj1 (loop_exception_handling 100 false)
             (Orchestrator.tick_sync_raises 1101 RuntimeError) []
             Orchestrator.mid_run RuntimeError Orchestrator.mid_run).
    reflexivity.
  - apply (proj2 (loop_exception_handling 100 false)).
    + unfold Orchestrator.schedule_positive. simpl. lia.
    + repeat constructor; simpl; lia.
    + repeat constructor.
Defined.

(** C9: an exception raised inside the loop body that is not the shutdown
    interrupt should be logged and the loop should go on, as the comment
    above the first handler says (an unexpected error is logged) and as the
    miner's loop does with [except Exception]; the handler names
    [RuntimeError] only.  The metagraph sync raises [ConnectionError] at
    block 1101: it is neither a [RuntimeError] nor the interrupt, it leaves
    [start] unlogged, and the iteration for block 1102 never runs. *)
Theorem connection_error_ends_the_loop :
  is_RuntimeError ConnectionError = false ∧
  is_KeyboardInterrupt ConnectionError = false ∧
  Miner.is_Exception ConnectionError = true ∧
  Orchestrator.run 100 false
    [Orchestrator.tick_sync_raises 1101 ConnectionError;
     Orchestrator.quiet_tick 1102] Orchestrator.mid_run
  = Orchestrator.Crashed ConnectionError Orchestrator.mid_run ∧
  ¬ (∃ s', Orchestrator.run 100 false
             [Orchestrator.tick_sync_raises 1101 ConnectionError;
              Orchestrator.quiet_tick 1102] Orchestrator.mid_run
           = Orchestrator.Running s').
Proof.
  do 4 (split; [reflexivity|]).
  intros [s' H]. vm_compute in H. discriminate.
Qed.

(** ** Weight vector *)

(** The 1-norm is not negative, and is the total of scores that are not
    negative. *)
Lemma l1_norm_nonneg (v : list Q) : (0 <= Weights.l1_norm v)%Q.
Proof.
  induction v as [|x v IH]; simpl; [apply Qle_refl|].
  pose proof (Qabs_nonneg x). lra.
Qed.

Lemma l1_norm_total (v : list Q) :
  Forall (fun s => 0 <= s)%Q v → (Weights.l1_norm v == Weights.total v)%Q.
Proof.
  induction 1 as [|x v Hx Hv IH]; simpl; [reflexivity|].
  rewrite IH, (Qabs_pos x Hx). reflexivity.
Qed.

(** Dividing every entry divides the total. *)
Lemma total_div (v : list Q) (d : Q) :
  (Weights.total (List.map (fun x => x / d) v) == Weights.total v / d)%Q.
Proof.
  induction v as [|x v IH]; simpl.
  - unfold Qdiv. ring.
  - rewrite IH. unfold Qdiv. ring.
Qed.

Lemma total_nonneg (v : list Q) :
  Forall (fun s => 0 <= s)%Q v → (0 <= Weights.total v)%Q.
Proof. induction 1 as [|x v Hx Hv IH]; simpl; lra. Qed.

(** Scores that are not negative and add up to zero are all zero. *)
Lemma total_zero (v : list Q) :
  Forall (fun s => 0 <= s)%Q v → (Weights.total v == 0)%Q →
  Forall (fun s => s == 0)%Q v.
Proof.
  induction 1 as [|x v Hx Hv IH]; simpl; intros Ht; [constructor|].
  pose proof (total_nonneg v Hv).
  constructor; [lra|]. apply IH. lra.
Qed.

(** Each weight is the score over the clamped norm. *)
Lemma weights_lookup (scores : list Q) (i : nat) (s : Q) :
  scores !! i = Some s →
  Weights.weights scores !! i
  = Some (s / Weights.clamp_min (Weights.l1_norm scores) Weights.eps)%Q.
Proof.
  unfold Weights.weights, Weights.normalize.
  generalize (Weights.clamp_min (Weights.l1_norm scores) Weights.eps) as d.
  intros d. revert i. induction scores as [|x v IH]; intros [|i] H; simpl in *; try done.
  - by injection H as ->.
  - by apply IH.
Qed.

Lemma clamp_min_above (x m : Q) : (m <= x)%Q → Weights.clamp_min x m = x.
Proof.
  intros H. unfold Weights.clamp_min.
  apply Qle_bool_iff in H. by rewrite H.
Qed.

Lemma clamp_min_below (x m : Q) : (x < m)%Q → Weights.clamp_min x m = m.
Proof.
  intros H. unfold Weights.clamp_min.
  destruct (Qle_bool m x) eqn:E; [|done].
  apply Qle_bool_iff in E. lra.
Qed.




(** * Further properties of the validator *)

(** ** Blacklist and eligibility *)

(** The verdict is a disjunction of four memberships. *)
Lemma is_blacklisted_verdict (st : Blacklist.Lists) (n : NeuronInfoLite) :
  (Blacklist.is_blacklisted st n).1 = true ↔
  neuron_coldkey n ∈ Blacklist.blacklist_coldkeys st ∨
  neuron_hotkey n ∈ Blacklist.blacklist_hotkeys st ∨
  neuron_coldkey n ∈ Blacklist.exploiters_coldkeys st ∨
  neuron_hotkey n ∈ Blacklist.exploiters_hotkeys st.
Proof.
  unfold Blacklist.is_blacklisted.
  repeat case_bool_decide; simpl; split; try done; auto.
  intros [?|[?|[?|?]]]; done.
Qed.

Lemma lists_incl_trans (a b c : Blacklist.Lists) :
  Blacklist.lists_incl a b → Blacklist.lists_incl b c → Blacklist.lists_incl a c.
Proof.
  intros (A1 & A2 & A3 & A4) (B1 & B2 & B3 & B4).
  repeat split; etrans; done.
Qed.

Lemma lists_incl_refl (a : Blacklist.Lists) : Blacklist.lists_incl a a.
Proof. repeat split; done. Qed.

(** X1: a neuron reported as blacklisted is reported as blacklisted again
    in every later state of the four sets, since these only grow. *)
Theorem is_blacklisted_sticky (st st' : Blacklist.Lists) (n : NeuronInfoLite) :
  (Blacklist.is_blacklisted st n).1 = true →
  Blacklist.lists_incl st st' →
  (Blacklist.is_blacklisted st' n).1 = true.
Proof.
  rewrite !is_blacklisted_verdict.
  intros H (H1 & H2 & H3 & H4). set_solver.
Qed.

Lemma is_blacklisted_sticky_witness :
  let st := Blacklist.mkLists ∅ {["hk1"%string]} ∅ ∅ in
  let n := mkNeuron "ck1" "hk1" in
  (Blacklist.is_blacklisted (Blacklist.is_blacklisted st n).2 n).1 = true.
Proof.
  intros st n.
  apply (is_blacklisted_sticky st (Blacklist.is_blacklisted st n).2 n).
  - reflexivity.
  - apply is_blacklisted_grows.
Defined.

(** X2: a whole pass of [get_valid_queryable] over the metagraph removes
    nothing from any of the four sets. *)
Theorem get_valid_queryable_grows (st : Blacklist.Lists) (slots : list Blacklist.Slot) :
  Blacklist.lists_incl st (Blacklist.get_valid_queryable st slots).2.
Proof.
  revert st. induction slots as [|sl rest IH]; intros st; simpl.
  - apply lists_incl_refl.
  - destruct (negb (String.eqb (ip (Blacklist.slot_axon sl)) "0.0.0.0")
              && negb (Qle_bool 1024 (Blacklist.slot_stake sl))); [|apply IH].
    pose proof (is_blacklisted_grows st (Blacklist.slot_neuron sl)) as Hg.
    destruct (Blacklist.is_blacklisted st (Blacklist.slot_neuron sl)) as [b st1].
    specialize (IH st1).
    destruct (Blacklist.get_valid_queryable st1 rest) as [q st2]. simpl in *.
    by apply (lists_incl_trans st st1 st2).
Qed.

(** The sets after a slot followed by [pre] are the sets after [pre],
    started from what the slot left. *)
Lemma get_valid_queryable_cons_state (st : Blacklist.Lists) (sl : Blacklist.Slot)
    (pre : list Blacklist.Slot) :
  (Blacklist.get_valid_queryable st (sl :: pre)).2 =
  (Blacklist.get_valid_queryable
     (if negb (String.eqb (ip (Blacklist.slot_axon sl)) "0.0.0.0")
         && negb (Qle_bool 1024 (Blacklist.slot_stake sl))
      then (Blacklist.is_blacklisted st (Blacklist.slot_neuron sl)).2 else st) pre).2.
Proof.
  simpl.
  destruct (negb (String.eqb (ip (Blacklist.slot_axon sl)) "0.0.0.0")
            && negb (Qle_bool 1024 (Blacklist.slot_stake sl))); [|done].
  destruct (Blacklist.is_blacklisted st (Blacklist.slot_neuron sl)) as [b st1].
  simpl. by destruct (Blacklist.get_valid_queryable st1 pre).
Qed.

(** Every candidate comes from an eligible slot, whose neuron the check
    let through with the sets as the slots before it had left them. *)
Lemma get_valid_queryable_elem (st : Blacklist.Lists) (slots : list Blacklist.Slot)
    (u : Z) (a : AxonInfo) :
  (u, a) ∈ (Blacklist.get_valid_queryable st slots).1 →
  ∃ sl, sl ∈ slots ∧ Blacklist.slot_uid sl = u ∧ Blacklist.slot_axon sl = a ∧
        ip a ≠ "0.0.0.0"%string ∧ (Blacklist.slot_stake sl < 1024)%Q ∧
        ∃ pre post, slots = pre ++ sl :: post ∧
          (Blacklist.is_blacklisted (Blacklist.get_valid_queryable st pre).2
             (Blacklist.slot_neuron sl)).1 = false.
Proof.
  revert st. induction slots as [|sl rest IH]; intros st.
  - simpl. intros H. by apply elem_of_nil in H.
  - intros H.
    assert (Hlift : ∀ st',
      (∀ pre, (Blacklist.get_valid_queryable st (sl :: pre)).2 =
              (Blacklist.get_valid_queryable st' pre).2) →
      (u, a) ∈ (Blacklist.get_valid_queryable st' rest).1 →
      ∃ sl', sl' ∈ sl :: rest ∧ Blacklist.slot_uid sl' = u ∧
             Blacklist.slot_axon sl' = a ∧ ip a ≠ "0.0.0.0"%string ∧
             (Blacklist.slot_stake sl' < 1024)%Q ∧
             ∃ pre post, sl :: rest = pre ++ sl' :: post ∧
               (Blacklist.is_blacklisted (Blacklist.get_valid_queryable st pre).2
                  (Blacklist.slot_neuron sl')).1 = false).
    { intros st' Hstate H'.
      destruct (IH st' H') as (sl' & Hin & Hu & Ha & Hne & Hst & pre & post & -> & Hv).
      exists sl'. split; [by right|]. do 4 (split; [done|]).
      exists (sl :: pre), post. split; [done|]. by rewrite Hstate. }
    pose proof (get_valid_queryable_cons_state st sl) as Hstate.
    simpl in H.
    destruct (negb (String.eqb (ip (Blacklist.slot_axon sl)) "0.0.0.0")
              && negb (Qle_bool 1024 (Blacklist.slot_stake sl))) eqn:Hel.
    2:{ by apply (Hlift st). }
    destruct (Blacklist.is_blacklisted st (Blacklist.slot_neuron sl)) as [b st1] eqn:Hb.
    destruct (Blacklist.get_valid_queryable st1 rest) as [q st2] eqn:Hq.
    assert (Hq' : q = (Blacklist.get_valid_queryable st1 rest).1) by (by rewrite Hq).
    simpl in H.
    destruct b.
    { apply (Hlift st1); [exact Hstate|by rewrite <- Hq']. }
    apply elem_of_cons in H as [Heq|H].
    2:{ apply (Hlift st1); [exact Hstate|by rewrite <- Hq']. }
    injection Heq as -> ->. exists sl. split; [left|].
    split; [done|]. split; [done|].
    apply andb_true_iff in Hel as [Hip Hstake].
    apply negb_true_iff in Hip, Hstake.
    split.
    { by apply String.eqb_neq in Hip. }
    split.
    { apply Qnot_le_lt. intros Hle. apply Qle_bool_iff in Hle. congruence. }
    exists [], rest. split; [done|]. simpl. by rewrite Hb.
Qed.

(** The candidates keep the order of the metagraph. *)
Lemma get_valid_queryable_sublist (st : Blacklist.Lists) (slots : list Blacklist.Slot) :
  (Blacklist.get_valid_queryable st slots).1.*1 `sublist_of` Blacklist.slot_uid <$> slots.
Proof.
  revert st. induction slots as [|sl rest IH]; intros st; simpl; [done|].
  destruct (negb (String.eqb (ip (Blacklist.slot_axon sl)) "0.0.0.0")
            && negb (Qle_bool 1024 (Blacklist.slot_stake sl))).
  2:{ apply sublist_cons, IH. }
  destruct (Blacklist.is_blacklisted st (Blacklist.slot_neuron sl)) as [b st1].
  specialize (IH st1).
  destruct (Blacklist.get_valid_queryable st1 rest) as [q st2]. simpl in *.
  destruct b; simpl.
  - by apply sublist_cons.
  - by apply sublist_skip.
Qed.

(** X3: every pair returned by [get_valid_queryable] is the uid and axon
    of a slot with an assigned address and a stake below 1024 whose neuron
    [is_blacklisted] let through when it was checked, that is, with the
    four sets as the pass over the slots before it had left them; the uids
    come in metagraph order, so they are pairwise distinct when the
    metagraph's are. *)
Theorem get_valid_queryable_sound (st : Blacklist.Lists) (slots : list Blacklist.Slot) :
  (∀ u a, (u, a) ∈ (Blacklist.get_valid_queryable st slots).1 →
     ∃ sl, sl ∈ slots ∧ Blacklist.slot_uid sl = u ∧ Blacklist.slot_axon sl = a ∧
           ip a ≠ "0.0.0.0"%string ∧ (Blacklist.slot_stake sl < 1024)%Q ∧
           ∃ pre post, slots = pre ++ sl :: post ∧
             (Blacklist.is_blacklisted (Blacklist.get_valid_queryable st pre).2
                (Blacklist.slot_neuron sl)).1 = false) ∧
  (Blacklist.get_valid_queryable st slots).1.*1 `sublist_of` Blacklist.slot_uid <$> slots ∧
  (NoDup (Blacklist.slot_uid <$> slots) →
   NoDup (Blacklist.get_valid_queryable st slots).1.*1).
Proof.
  split; [|split].
  - intros u a. apply get_valid_queryable_elem.
  - apply get_valid_queryable_sublist.
  - intros Hnd. eapply sublist_NoDup; [done|apply get_valid_queryable_sublist].
Qed.

Lemma get_valid_queryable_sound_witness :
  let slots := [Blacklist.mkSlot 0 (mkNeuron "ck0" "hk0")
                  (mkAxon "0.0.0.0" 0 "hk0" "ck0" 150) 0%Q;
                Blacklist.mkSlot 1 (mkNeuron "ck1" "hk1")
                  (mkAxon "10.0.0.1" 8091 "hk1" "ck1" 150) 5%Q;
                Blacklist.mkSlot 2 (mkNeuron "ck2" "hk2")
                  (mkAxon "10.0.0.2" 8091 "hk2" "ck2" 150) 2000%Q] in
  (Blacklist.get_valid_queryable (Blacklist.mkLists ∅ ∅ ∅ ∅) slots).1.*1 = [1] ∧
  NoDup (Blacklist.get_valid_queryable (Blacklist.mkLists ∅ ∅ ∅ ∅) slots).1.*1.
Proof.
  intros slots. split; [reflexivity|].
  apply (get_valid_queryable_sound (Blacklist.mkLists ∅ ∅ ∅ ∅) slots).
  simpl. repeat (apply NoDup_cons; split; [set_solver|]). apply NoDup_nil_2.
Defined.

(** X4: [get_valid_tensors] yields one boolean per slot, in order, and the
    boolean of a slot without an assigned address is [False]. *)
Theorem get_valid_tensors_aligned (st : Blacklist.Lists) (slots : list Blacklist.Slot) :
  length (Queryable.get_valid_tensors st slots).1 = length slots ∧
  ∀ i sl, slots !! i = Some sl →
          ip (Blacklist.slot_axon sl) = "0.0.0.0"%string →
          (Queryable.get_valid_tensors st slots).1 !! i = Some false.
Proof.
  revert st. induction slots as [|sl rest IH]; intros st; simpl.
  - split; [done|]. intros i sl Hi. by rewrite lookup_nil in Hi.
  - destruct (negb (String.eqb (ip (Blacklist.slot_axon sl)) "0.0.0.0")) eqn:Hip.
    + destruct (Blacklist.is_blacklisted st (Blacklist.slot_neuron sl)) as [b st1].
      destruct (IH st1) as [Hlen Hfalse].
      destruct (Queryable.get_valid_tensors st1 rest) as [t st2]. simpl in *.
      split; [by rewrite Hlen|].
      intros [|i] sl' Hi Hz; simpl in *.
      * injection Hi as <-. rewrite Hz in Hip. done.
      * by apply (Hfalse i sl').
    + destruct (IH st) as [Hlen Hfalse].
      destruct (Queryable.get_valid_tensors st rest) as [t st2]. simpl in *.
      split; [by rewrite Hlen|].
      intros [|i] sl' Hi Hz; simpl in *; [done|].
      by apply (Hfalse i sl').
Qed.

Lemma get_valid_tensors_aligned_witness :
  let slots := [Blacklist.mkSlot 0 (mkNeuron "ck0" "hk0")
                  (mkAxon "0.0.0.0" 0 "hk0" "ck0" 150) 0%Q;
                Blacklist.mkSlot 1 (mkNeuron "ck1" "hk1")
                  (mkAxon "10.0.0.1" 8091 "hk1" "ck1" 150) 5%Q] in
  (Queryable.get_valid_tensors (Blacklist.mkLists ∅ ∅ ∅ ∅) slots).1 !! 0%nat
    = Some false.
Proof.
  intros slots.
  apply (proj2 (get_valid_tensors_aligned (Blacklist.mkLists ∅ ∅ ∅ ∅) slots) 0%nat
           (Blacklist.mkSlot 0 (mkNeuron "ck0" "hk0")
              (mkAxon "0.0.0.0" 0 "hk0" "ck0" 150) 0%Q)).
  - reflexivity.
  - reflexivity.
Defined.

(** ** Deduplication, for any candidate list *)

Lemma filter_loop_inv (l : list (Z * AxonInfo)) (seen : gset string)
    (d : gmap Z AxonInfo) :
  dedup_inv seen d →
  ∃ seen', dedup_inv seen' (Dedup.filter_loop seen d l).
Proof.
  revert seen d. induction l as [|[u a] rest IH]; intros seen d Hinv; simpl.
  - by exists seen.
  - case_bool_decide as Hip; [|by apply IH].
    apply IH. destruct Hinv as [Hseen Hdist]. split.
    + intros u' a' Hl. destruct (decide (u = u')) as [->|Hne].
      * rewrite lookup_insert_eq in Hl. injection Hl as <-. set_solver.
      * rewrite lookup_insert_ne in Hl by done. specialize (Hseen u' a' Hl). set_solver.
    + intros u1 u2 a1 a2 H1 H2 Heq.
      destruct (decide (u = u1)) as [<-|Hne1]; destruct (decide (u = u2)) as [<-|Hne2];
        [done| | |].
      * rewrite lookup_insert_eq in H1. injection H1 as <-.
        rewrite lookup_insert_ne in H2 by done.
        exfalso. apply Hip. rewrite Heq. by apply (Hseen u2 a2).
      * rewrite lookup_insert_eq in H2. injection H2 as <-.
        rewrite lookup_insert_ne in H1 by done.
        exfalso. apply Hip. rewrite <- Heq. by apply (Hseen u1 a1).
      * rewrite lookup_insert_ne in H1, H2 by done. by apply (Hdist u1 u2 a1 a2).
Qed.

Lemma filter_loop_from_input (l : list (Z * AxonInfo)) (seen : gset string)
    (d : gmap Z AxonInfo) (u : Z) (a : AxonInfo) :
  Dedup.filter_loop seen d l !! u = Some a → d !! u = Some a ∨ (u, a) ∈ l.
Proof.
  revert seen d. induction l as [|[u' a'] rest IH]; intros seen d; simpl; [by left|].
  case_bool_decide.
  - intros H'. destruct (IH _ _ H') as [Hd|Hin]; [|right; by right].
    destruct (decide (u' = u)) as [->|Hne].
    + rewrite lookup_insert_eq in Hd. injection Hd as ->. right. left.
    + rewrite lookup_insert_ne in Hd by done. by left.
  - intros H'. destruct (IH _ _ H') as [Hd|Hin]; [by left|right; by right].
Qed.

Lemma filter_axons_distinct (l : list (Z * AxonInfo)) (u1 u2 : Z) (a1 a2 : AxonInfo) :
  Dedup.filter_axons l !! u1 = Some a1 →
  Dedup.filter_axons l !! u2 = Some a2 →
  ip a1 = ip a2 → u1 = u2.
Proof.
  destruct (filter_loop_inv l ∅ ∅) as (seen' & _ & Hdist).
  { split; intros *; by rewrite lookup_empty. }
  apply Hdist.
Qed.

Lemma filter_axons_from_input (l : list (Z * AxonInfo)) (u : Z) (a : AxonInfo) :
  Dedup.filter_axons l !! u = Some a → (u, a) ∈ l.
Proof.
  intros H. destruct (filter_loop_from_input l ∅ ∅ u a H) as [Hd|Hin]; [|done].
  by rewrite lookup_empty in Hd.
Qed.

(** X5: for any candidate list, repeated uids included, every entry of the
    result is a pair of the input and no two distinct uids of the result
    share an address; an empty list gives an empty dictionary. *)
Theorem filter_axons_any_list (l : list (Z * AxonInfo)) :
  (∀ u a, Dedup.filter_axons l !! u = Some a → (u, a) ∈ l) ∧
  (∀ u1 u2 a1 a2,
     Dedup.filter_axons l !! u1 = Some a1 →
     Dedup.filter_axons l !! u2 = Some a2 →
     ip a1 = ip a2 → u1 = u2) ∧
  (l = [] → Dedup.filter_axons l = ∅).
Proof.
  split; [|split].
  - apply filter_axons_from_input.
  - apply filter_axons_distinct.
  - by intros ->.
Qed.

Lemma filter_axons_any_list_witness :
  let l := [(1, mkAxon "10.0.0.1" 8091 "hk1" "ck1" 1);
            (1, mkAxon "10.0.0.2" 8091 "hk2" "ck2" 1);
            (2, mkAxon "10.0.0.1" 8092 "hk3" "ck3" 1)] in
  (1, mkAxon "10.0.0.2" 8091 "hk2" "ck2" 1) ∈ l.
Proof.
  intros l.
  apply (proj1 (filter_axons_any_list l) 1 (mkAxon "10.0.0.2" 8091 "hk2" "ck2" 1)).
  reflexivity.
Defined.

Lemma filter_loop_size (l : list (Z * AxonInfo)) (seen : gset string)
    (d : gmap Z AxonInfo) :
  NoDup l.*1 →
  (∀ u, u ∈ l.*1 → d !! u = None) →
  size (Dedup.filter_loop seen d l) = (size d + size (addresses l ∖ seen))%nat.
Proof.
  revert seen d. induction l as [|[u a] rest IH]; intros seen d Hnd Hfresh; simpl.
  - unfold addresses. simpl.
    replace ((∅ : gset string) ∖ seen) with (∅ : gset string) by set_solver.
    rewrite size_empty. lia.
  - simpl in Hnd. apply NoDup_cons in Hnd as [Hu Hnd].
    assert (Hdu : d !! u = None) by (apply Hfresh; simpl; left).
    assert (Haddr : addresses ((u, a) :: rest) = {[ip a]} ∪ addresses rest)
      by reflexivity.
    rewrite Haddr.
    case_bool_decide as Hip.
    + rewrite IH; [|done|].
      2:{ intros u' Hu'. rewrite lookup_insert_ne; [|by intros ->].
          apply Hfresh. simpl. by right. }
      rewrite map_size_insert_None by done.
      replace (({[ip a]} ∪ addresses rest) ∖ seen)
        with ({[ip a]} ∪ (addresses rest ∖ ({[ip a]} ∪ seen))).
      2:{ apply set_eq. intros x. rewrite !elem_of_union, !elem_of_difference,
            !elem_of_union, !elem_of_singleton.
          destruct (decide (x = ip a)) as [->|]; naive_solver. }
      assert (Hd : ({[ip a]} : gset string) ## addresses rest ∖ ({[ip a]} ∪ seen))
        by set_solver.
      rewrite (size_union _ _ Hd), size_singleton. lia.
    + rewrite IH; [|done|].
      2:{ intros u' Hu'. apply Hfresh. simpl. by right. }
      f_equal. f_equal. set_solver.
Qed.

(** X6: when every uid occurs once in the candidate list, the result has
    exactly as many entries as the list has distinct addresses. *)
Theorem filter_axons_size (l : list (Z * AxonInfo)) :
  NoDup l.*1 →
  size (Dedup.filter_axons l) = size (addresses l).
Proof.
  intros Hnd. unfold Dedup.filter_axons.
  rewrite (filter_loop_size l ∅ ∅ Hnd (fun u _ => lookup_empty u)).
  rewrite map_size_empty. simpl. f_equal. set_solver.
Qed.

Lemma filter_axons_size_witness :
  let l := [(1, mkAxon "10.0.0.1" 8091 "hk1" "ck1" 1);
            (2, mkAxon "10.0.0.2" 8091 "hk2" "ck2" 1);
            (3, mkAxon "10.0.0.1" 8092 "hk3" "ck3" 1)] in
  size (Dedup.filter_axons l) = size (addresses l).
Proof.
  intros l. apply (filter_axons_size l).
  simpl. repeat (apply NoDup_cons; split; [set_solver|]). apply NoDup_nil_2.
Defined.

(** ** Version stage, whatever [percent] computes *)

Lemma keep_recent_lookup (latest : option Z) (d : gmap Z AxonInfo) (u : Z) (a : AxonInfo) :
  VersionGate.keep_recent latest d !! u = Some a ↔
  d !! u = Some a ∧ ∃ v, latest = Some v ∧ v ≠ 0 ∧ v ≤ version a.
Proof.
  unfold VersionGate.keep_recent. rewrite map_lookup_filter_Some. simpl.
  unfold VersionGate.version_ok.
  split; intros [Hd Hv]; (split; [done|]).
  - destruct latest as [v|]; [|done]. exists v.
    apply andb_true_iff in Hv as [Hnz Hle].
    apply negb_true_iff, Z.eqb_neq in Hnz. apply Z.leb_le in Hle. done.
  - destruct Hv as (v & -> & Hnz & Hle).
    apply andb_true_iff. split; [by apply negb_true_iff, Z.eqb_neq|by apply Z.leb_le].
Qed.

Lemma filter_axon_version_submap (percent : Z → Z → option Q) (threshold : Q)
    (latest : option Z) (total : Z) (d d' : gmap Z AxonInfo) :
  VersionGate.filter_axon_version percent threshold latest total d = Some d' →
  d' ⊆ d.
Proof.
  rewrite filter_axon_version_cases.
  destruct (VersionGate.gate_skips percent threshold total d) as [[]|]; [| |done].
  - by intros [= <-].
  - intros [= <-]. apply map_filter_subseteq.
Qed.

(** X7: when the version stage returns, its result is a part of its
    input; it is either the input itself or holds only workers whose
    version is at least a known, non-zero minimum, so that without such a
    minimum ([None] or 0) the result is the input or empty. *)
Theorem filter_axon_version_result (percent : Z → Z → option Q) (threshold : Q)
    (latest : option Z) (total : Z) (d d' : gmap Z AxonInfo) :
  VersionGate.filter_axon_version percent threshold latest total d = Some d' →
  d' ⊆ d ∧
  (d' = d ∨
   (∀ u a, d' !! u = Some a → ∃ v, latest = Some v ∧ v ≠ 0 ∧ v ≤ version a)) ∧
  ((latest = None ∨ latest = Some 0) → d' = d ∨ d' = ∅).
Proof.
  intros H. split; [by eapply filter_axon_version_submap|].
  rewrite filter_axon_version_cases in H.
  destruct (VersionGate.gate_skips percent threshold total d) as [[]|]; [| |done].
  - injection H as <-. split; [by left|]. intros _. by left.
  - injection H as <-. split.
    + right. intros u a Hl. by apply keep_recent_lookup in Hl as [_ Hv].
    + intros Hl. right. apply map_eq. intros u. rewrite lookup_empty.
      apply eq_None_not_Some. intros [a Ha].
      apply keep_recent_lookup in Ha as (_ & v & Hv & Hnz & _).
      destruct Hl as [->| ->]; [done|]. by injection Hv as <-.
Qed.

(** With [percent] dividing by a total of 20 and a threshold of 40, ten
    workers pass the gate and the stage drops the outdated one. *)
Lemma filter_axon_version_result_witness :
  let percent := fun a b : Z => Some (inject_Z (a * 100 / b)) in
  let d' := VersionGate.keep_recent (Some 150) VersionGate.one_outdated in
  d' ⊆ VersionGate.one_outdated ∧
  (d' = VersionGate.one_outdated ∨
   (∀ u a, d' !! u = Some a → ∃ v, Some 150 = Some v ∧ v ≠ 0 ∧ v ≤ version a)) ∧
  ((Some 150 = None ∨ Some 150 = Some 0) → d' = VersionGate.one_outdated ∨ d' = ∅).
Proof.
  intros percent d'.
  apply (filter_axon_version_result percent 40%Q (Some 150) 20
           VersionGate.one_outdated d').
  reflexivity.
Defined.

(** ** The membership filter as a whole *)

(** X8: whatever the blacklist sets, the known miners, the minimum
    version and [percent], every worker of the dictionary returned by
    [get_queryable] is the uid and axon of a metagraph slot with an
    assigned address and a stake below 1024, and no two distinct uids of
    the dictionary share an address. *)
Theorem get_queryable_sound (percent : Z → Z → option Q) (threshold : Q)
    (latest : option Z) (total : Z) (st : Blacklist.Lists)
    (miners : gmap Z string) (slots : list Blacklist.Slot) (d : gmap Z AxonInfo) :
  Queryable.round_queryable
    (Queryable.get_queryable percent threshold latest total st miners slots) = Some d →
  (∀ u a, d !! u = Some a →
     ∃ sl, sl ∈ slots ∧ Blacklist.slot_uid sl = u ∧ Blacklist.slot_axon sl = a ∧
           ip a ≠ "0.0.0.0"%string ∧ (Blacklist.slot_stake sl < 1024)%Q) ∧
  (∀ u1 u2 a1 a2, d !! u1 = Some a1 → d !! u2 = Some a2 → ip a1 = ip a2 → u1 = u2).
Proof.
  unfold Queryable.get_queryable.
  pose proof (get_valid_queryable_elem st slots) as Helem.
  destruct (Blacklist.get_valid_queryable st slots) as [queryable st'].
  destruct (Registry.sync_miners_info miners queryable) as [miners' events].
  simpl. intros Hv. apply filter_axon_version_submap in Hv.
  assert (Hsub : ∀ u a, d !! u = Some a → Dedup.filter_axons queryable !! u = Some a).
  { intros u a Hd. by eapply lookup_weaken. }
  split.
  - intros u a Hd. apply Hsub, filter_axons_from_input in Hd.
    destruct (Helem u a Hd) as (sl & ? & ? & ? & ? & ? & _). by exists sl.
  - intros u1 u2 a1 a2 H1 H2.
    apply (filter_axons_distinct queryable); by apply Hsub.
Qed.

Lemma get_queryable_sound_witness :
  let percent := fun a b : Z => Some (inject_Z (a * 100 / b)) in
  let slots := [Blacklist.mkSlot 0 (mkNeuron "ck0" "hk0")
                  (mkAxon "10.0.0.1" 8091 "hk0" "ck0" 150) 0%Q;
                Blacklist.mkSlot 1 (mkNeuron "ck1" "hk1")
                  (mkAxon "10.0.0.1" 8092 "hk1" "ck1" 150) 5%Q] in
  let d : gmap Z AxonInfo := {[0 := mkAxon "10.0.0.1" 8091 "hk0" "ck0" 150]} in
  (∀ u a, d !! u = Some a →
     ∃ sl, sl ∈ slots ∧ Blacklist.slot_uid sl = u ∧ Blacklist.slot_axon sl = a ∧
           ip a ≠ "0.0.0.0"%string ∧ (Blacklist.slot_stake sl < 1024)%Q) ∧
  (∀ u1 u2 a1 a2, d !! u1 = Some a1 → d !! u2 = Some a2 → ip a1 = ip a2 → u1 = u2).
Proof.
  intros percent slots d.
  apply (get_queryable_sound percent 40%Q (Some 150) 2
           (Blacklist.mkLists ∅ ∅ ∅ ∅) ∅ slots d).
  reflexivity.
Defined.

(** ** Registry lifecycle, beyond one uid *)

(** With a non-empty map, an entry leaves its uid bound to its hotkey. *)
Lemma sync_one_binds (m : gmap Z string) (u : Z) (a : AxonInfo) :
  m ≠ ∅ →
  (Registry.sync_one m u a).1 !! u = Some (hotkey a) ∧ (Registry.sync_one m u a).1 ≠ ∅.
Proof.
  intros Hne. unfold Registry.sync_one.
  destruct (Registry.needs_resync m u (hotkey a)) eqn:E; simpl.
  - split; [apply lookup_insert_eq|]. apply insert_non_empty.
  - split; [|done].
    destruct (decide (m !! u = Some (hotkey a))) as [|Hx]; [done|].
    assert (Registry.needs_resync m u (hotkey a) = true)
      by (by apply needs_resync_true).
    congruence.
Qed.

Lemma sync_loop_non_empty (l : list (Z * AxonInfo)) (m : gmap Z string) :
  m ≠ ∅ → (Registry.sync_loop m l).1 ≠ ∅.
Proof.
  revert m. induction l as [|[u a] rest IH]; intros m Hne; simpl; [done|].
  destruct (sync_one_binds m u a Hne) as [_ Hne1].
  destruct (Registry.sync_one m u a) as [m1 e1]. simpl in *.
  specialize (IH m1 Hne1).
  by destruct (Registry.sync_loop m1 rest) as [m2 e2].
Qed.

Lemma sync_loop_binds (l : list (Z * AxonInfo)) (m : gmap Z string) :
  m ≠ ∅ → NoDup l.*1 →
  ∀ u a, (u, a) ∈ l → (Registry.sync_loop m l).1 !! u = Some (hotkey a).
Proof.
  revert m. induction l as [|[u0 a0] rest IH]; intros m Hne Hnd u a Hin.
  - by apply elem_of_nil in Hin.
  - simpl in Hnd. apply NoDup_cons in Hnd as [Hu0 Hnd].
    simpl.
    destruct (sync_one_binds m u0 a0 Hne) as [Hb Hne1].
    destruct (Registry.sync_one m u0 a0) as [m1 e1]. simpl in *.
    apply elem_of_cons in Hin as [Heq|Hin].
    + injection Heq as -> ->.
      destruct (sync_loop_other u0 rest m1 Hu0) as [Hm _].
      destruct (Registry.sync_loop m1 rest) as [m2 e2]. simpl in *. congruence.
    + specialize (IH m1 Hne1 Hnd u a Hin).
      by destruct (Registry.sync_loop m1 rest) as [m2 e2].
Qed.

Lemma sync_loop_settled (l : list (Z * AxonInfo)) (m : gmap Z string) :
  (∀ u a, (u, a) ∈ l → m !! u = Some (hotkey a)) →
  Registry.sync_loop m l = (m, []).
Proof.
  induction l as [|[u a] rest IH]; intros Hb; simpl; [done|].
  assert (Registry.sync_one m u a = (m, [])) as ->.
  { unfold Registry.sync_one.
    destruct (Registry.needs_resync m u (hotkey a)) eqn:E; [|done].
    apply needs_resync_true in E as [_ E]. exfalso. apply E, Hb. left. }
  rewrite IH; [done|]. intros u' a' Hin. apply Hb. by right.
Qed.

(** X9: with a non-empty known-miners map and one entry per uid in the
    snapshot, reconciliation binds every uid of the snapshot to its
    hotkey, and a second reconciliation with the same snapshot makes no
    database call and changes nothing. *)
Theorem sync_miners_info_converges (miners : gmap Z string) (l : list (Z * AxonInfo)) :
  miners ≠ ∅ → NoDup l.*1 →
  (∀ u a, (u, a) ∈ l →
     (Registry.sync_miners_info miners l).1 !! u = Some (hotkey a)) ∧
  Registry.sync_miners_info (Registry.sync_miners_info miners l).1 l
    = ((Registry.sync_miners_info miners l).1, []).
Proof.
  intros Hne Hnd.
  assert (Hloop : ∀ m, Registry.sync_miners_info m l = Registry.sync_loop m l)
    by (intros m; by destruct l).
  rewrite !Hloop.
  pose proof (sync_loop_binds l miners Hne Hnd) as Hb.
  split; [done|]. by apply sync_loop_settled.
Qed.

Lemma sync_miners_info_converges_witness :
  let l := [(5, mkAxon "10.0.0.1" 8091 "B" "ck" 1);
            (6, mkAxon "10.0.0.2" 8091 "C" "ck" 1)] in
  Registry.sync_miners_info
    (Registry.sync_miners_info {[5 := "A"%string]} l).1 l
  = ((Registry.sync_miners_info {[5 := "A"%string]} l).1, []).
Proof.
  intros l.
  apply (sync_miners_info_converges {[5 := "A"%string]} l).
  - apply insert_non_empty.
  - simpl. repeat (apply NoDup_cons; split; [set_solver|]). apply NoDup_nil_2.
Defined.

(** X10: a uid that is absent from the snapshot keeps its binding, and no
    database call is made about it. *)
Theorem sync_miners_info_absent_untouched (miners : gmap Z string)
    (l : list (Z * AxonInfo)) (uid : Z) :
  uid ∉ l.*1 →
  (Registry.sync_miners_info miners l).1 !! uid = miners !! uid ∧
  Registry.events_of uid (Registry.sync_miners_info miners l).2 = [].
Proof.
  intros Hnot.
  assert (Registry.sync_miners_info miners l = Registry.sync_loop miners l) as ->
    by (by destruct l).
  by apply sync_loop_other.
Qed.

Lemma sync_miners_info_absent_untouched_witness :
  let miners : gmap Z string := {[5 := "A"%string; 9 := "Z"%string]} in
  let l := [(5, mkAxon "10.0.0.1" 8091 "B" "ck" 1)] in
  (Registry.sync_miners_info miners l).1 !! 9 = miners !! 9 ∧
  Registry.events_of 9 (Registry.sync_miners_info miners l).2 = [].
Proof.
  intros miners l.
  apply (sync_miners_info_absent_untouched {[5 := "A"%string; 9 := "Z"%string]}
           [(5, mkAxon "10.0.0.1" 8091 "B" "ck" 1)] 9).
  simpl. set_solver.
Defined.

(** ** Difficulty controller, for any statistics *)

(** X11: a miner without statistics, or with fewer than 20 lifetime
    successes, gets the minimum difficulty. *)
Theorem calc_difficulty_default (D : Z) (fd : Q) (stats : gmap Z Difficulty.Stat)
    (uid : Z) :
  (stats !! uid = None ∨
   ∃ stat, stats !! uid = Some stat ∧
     (Difficulty.force_to_float_or_default (Difficulty.challenge_successes stat) fd < 20)%Q) →
  Difficulty.calc_difficulty D fd stats uid = D.
Proof.
  unfold Difficulty.calc_difficulty.
  intros [->|(stat & -> & Hlt)]; [done|].
  destruct (Qle_bool 20 _) eqn:E; [|done].
  apply Qle_bool_iff in E. exfalso. by apply (Qlt_not_le _ _ Hlt).
Qed.

Lemma calc_difficulty_default_witness :
  Difficulty.calc_difficulty 6 0%Q
    {[7 := Difficulty.mkStat (Some 9%Q) (Some 0%Q) (Some 19%Q)]} 7 = 6.
Proof.
  apply (calc_difficulty_default 6 0%Q
           {[7 := Difficulty.mkStat (Some 9%Q) (Some 0%Q) (Some 19%Q)]} 7).
  right. eexists. split; [reflexivity|]. reflexivity.
Defined.

(** X12: for a miner with statistics the result is the minimum difficulty
    or lies within one step of the rounded-up last-20 average. *)
Theorem calc_difficulty_step (D : Z) (fd : Q) (stats : gmap Z Difficulty.Stat)
    (uid : Z) (stat : Difficulty.Stat) :
  stats !! uid = Some stat →
  Difficulty.calc_difficulty D fd stats uid = D ∨
  Z.abs (Difficulty.calc_difficulty D fd stats uid - Difficulty.current_of D stat) ≤ 1.
Proof.
  intros Hs. unfold Difficulty.calc_difficulty. rewrite Hs.
  destruct (Qle_bool 20 _); [|by left].
  right. apply adjust_within_one.
Qed.

Lemma calc_difficulty_step_witness :
  let stats : gmap Z Difficulty.Stat :=
    {[7 := Difficulty.mkStat (Some (17 # 2)%Q) (Some 3%Q) (Some 25%Q)]} in
  Difficulty.calc_difficulty 6 0%Q stats 7 = 6 ∨
  Z.abs (Difficulty.calc_difficulty 6 0%Q stats 7
         - Difficulty.current_of 6
             (Difficulty.mkStat (Some (17 # 2)%Q) (Some 3%Q) (Some 25%Q))) ≤ 1.
Proof.
  intros stats.
  apply (calc_difficulty_step 6 0%Q stats 7
           (Difficulty.mkStat (Some (17 # 2)%Q) (Some 3%Q) (Some 25%Q))).
  reflexivity.
Defined.

(** X13: as long as the last-20 average is strictly above the minimum
    difficulty, the result is not below the minimum. *)
Theorem calc_difficulty_floor_above_minimum (D : Z) (fd : Q)
    (stats : gmap Z Difficulty.Stat) (uid : Z) (stat : Difficulty.Stat) (avg : Q) :
  stats !! uid = Some stat →
  Difficulty.last_20_difficulty_avg stat = Some avg →
  (inject_Z D < avg)%Q →
  D ≤ Difficulty.calc_difficulty D fd stats uid.
Proof.
  intros Hs Havg Hlt. unfold Difficulty.calc_difficulty. rewrite Hs.
  destruct (Qle_bool 20 _); [|lia].
  assert (Hc : D < Difficulty.current_of D stat).
  { unfold Difficulty.current_of. rewrite Havg. simpl.
    pose proof (Qle_ceiling avg) as Hle.
    pose proof (Qlt_le_trans _ _ _ Hlt Hle) as Hq.
    rewrite <- Zlt_Qlt in Hq. done. }
  unfold Difficulty.adjust.
  destruct (Qeq_bool _ 0); [lia|]. destruct (Qle_bool 2 _); lia.
Qed.

Lemma calc_difficulty_floor_above_minimum_witness :
  6 ≤ Difficulty.calc_difficulty 6 0%Q
        {[7 := Difficulty.mkStat (Some (61 # 10)%Q) (Some 3%Q) (Some 25%Q)]} 7.
Proof.
  apply (calc_difficulty_floor_above_minimum 6 0%Q
           {[7 := Difficulty.mkStat (Some (61 # 10)%Q) (Some 3%Q) (Some 25%Q)]} 7
           (Difficulty.mkStat (Some (61 # 10)%Q) (Some 3%Q) (Some 25%Q)) (61 # 10)%Q).
  - reflexivity.
  - reflexivity.
  - reflexivity.
Defined.

(** ** Scores *)

Lemma tensor_index_nonneg (len : nat) (uid : Z) (i : nat) :
  0 ≤ uid → Scores.tensor_index len uid = Some i →
  i = Z.to_nat uid ∧ (i < len)%nat.
Proof.
  intros Hu. unfold Scores.tensor_index.
  destruct (Z.leb_spec 0 uid); [|lia]. simpl.
  destruct (Z.ltb_spec uid (Z.of_nat len)); simpl.
  - intros [= <-]. split; [done|lia].
  - destruct (Z.leb_spec (- Z.of_nat len) uid); simpl;
      destruct (Z.ltb_spec uid 0); simpl; try done; lia.
Qed.



(** ** Benchmark results *)

(** X15: for a challenge hash that is not the empty string, a response
    counts as a success exactly when it carries a non-empty password whose
    hash with the challenge salt is the challenge hash; a response without
    password is a failure. *)
Theorem execute_pow_request_success (gen_hash : string → string → string)
    (uid : Z) (axon : AxonInfo) (_hash _salt : string) (difficulty : Z)
    (response : option string) (elapsed_time : Q) :
  _hash ≠ ""%string →
  Benchmark.res_success
    (Benchmark.execute_pow_request gen_hash uid axon _hash _salt difficulty
       response elapsed_time).2 = true ↔
  ∃ pw, response = Some pw ∧ pw ≠ ""%string ∧ gen_hash pw _salt = _hash.
Proof.
  intros Hh. unfold Benchmark.execute_pow_request. simpl.
  destruct response as [pw|]; simpl.
  - destruct (String.eqb_spec pw "") as [->|Hpw].
    + split.
      * intros H. apply String.eqb_eq in H. done.
      * intros (pw & [= <-] & Hne & _). done.
    + rewrite String.eqb_eq. split.
      * intros ->. by exists pw.
      * by intros (pw' & [= <-] & _ & ->).
  - split.
    + intros H. apply String.eqb_eq in H. done.
    + by intros (pw & ? & _).
Qed.

Lemma execute_pow_request_success_witness :
  Benchmark.res_success
    (Benchmark.execute_pow_request (fun pw salt => pw +:+ salt) 3
       (mkAxon "10.0.0.3" 8091 "hk3" "ck3" 150) "abcxyz" "xyz" 6 None 2%Q).2 = true ↔
  ∃ pw, None = Some pw ∧ pw ≠ ""%string ∧ pw +:+ "xyz" = "abcxyz"%string.
Proof.
  apply (execute_pow_request_success (fun pw salt => pw +:+ salt) 3
           (mkAxon "10.0.0.3" 8091 "hk3" "ck3" 150) "abcxyz" "xyz" 6 None 2%Q).
  discriminate.
Defined.

Lemma record_cons (m : gmap Z Benchmark.Result) (w : Z * Benchmark.Result)
    (ws : list (Z * Benchmark.Result)) :
  Benchmark.record m (w :: ws) = Benchmark.record (<[w.1 := w.2]> m) ws.
Proof. reflexivity. Qed.

(** X16: when every thread writes under its own uid, the aggregated map
    does not depend on the order in which the threads enter the critical
    section. *)
Theorem record_order_independent (m : gmap Z Benchmark.Result)
    (ws ws' : list (Z * Benchmark.Result)) :
  ws ≡ₚ ws' → NoDup ws.*1 →
  Benchmark.record m ws = Benchmark.record m ws'.
Proof.
  intros Hperm. revert m.
  induction Hperm as [|w ws ws' Hp IH|w1 w2 ws|ws1 ws2 ws3 Hp1 IH1 Hp2 IH2];
    intros m Hnd.
  - done.
  - rewrite !record_cons. apply IH.
    simpl in Hnd. by apply NoDup_cons in Hnd as [_ Hnd].
  - rewrite !record_cons.
    simpl in Hnd. apply NoDup_cons in Hnd as [Hne _].
    rewrite insert_insert_ne; [done|].
    intros Heq. apply Hne. rewrite Heq. left.
  - rewrite IH1 by done. apply IH2.
    assert (Hf : ws1.*1 ≡ₚ ws2.*1) by (by apply fmap_Permutation).
    by rewrite <- Hf.
Qed.

Lemma record_order_independent_witness :
  let r1 := (1, Benchmark.mkResult "hk1" true 2%Q 6) in
  let r2 := (2, Benchmark.mkResult "hk2" false 30%Q 7) in
  Benchmark.record ∅ [r1; r2] = Benchmark.record ∅ [r2; r1].
Proof.
  intros r1 r2.
  apply (record_order_independent ∅ [r1; r2] [r2; r1]).
  - apply perm_swap.
  - simpl. repeat (apply NoDup_cons; split; [set_solver|]). apply NoDup_nil_2.
Defined.

(** ** Challenge dispatcher, for any input *)

(** Cutting a list into [n] consecutive slices of [B] elements gives the
    list back when [n * B] covers its length. *)
Lemma slices_concat {A} (B n : nat) (l : list A) :
  (length l ≤ n * B)%nat →
  concat (List.map (fun k => take B (drop (k * B) l)) (seq 0 n)) = l.
Proof.
  revert l. induction n as [|n IH]; intros l Hlen.
  - simpl in *. by destruct l; [|simpl in Hlen; lia].
  - rewrite <- cons_seq, <- fmap_S_seq. simpl.
    rewrite drop_0.
    replace (List.map (fun k => take B (drop (k * B) l)) (S <$> seq 0 n))
      with (List.map (fun k => take B (drop (k * B) (drop B l))) (seq 0 n)).
    + rewrite IH; [apply take_drop|]. rewrite length_drop. lia.
    + change (S <$> seq 0 n) with (List.map S (seq 0 n)).
      rewrite List.map_map. apply List.map_ext. intros k.
      rewrite drop_drop. reflexivity.
Qed.

Lemma py_range_slices {A} (B : nat) (l : list A) (starts : list nat) :
  Dispatcher.py_range (length l) B = Some starts →
  concat (List.map (fun i => Dispatcher.slice l i (i + B)) starts) = l.
Proof.
  unfold Dispatcher.py_range. destruct B as [|b]; [done|].
  intros [= <-]. rewrite List.map_map. unfold Dispatcher.slice.
  erewrite List.map_ext.
  - apply (slices_concat (S b) ((length l + S b - 1) / S b)).
    pose proof (Nat.div_mod (length l + S b - 1) (S b)) as Hdm.
    pose proof (Nat.mod_upper_bound (length l + S b - 1) (S b)) as Hmod.
    lia.
  - intros k. simpl. f_equal. lia.
Qed.

(** X17: for a batch size that is not zero, the slices
    [uids[i : i + B]] visited by the batching loop, taken in order, make up
    [self.uids]: every uid falls in exactly one slice. *)
Theorem batching_slices_partition (uids : list Z) (B : nat) :
  B ≠ 0%nat →
  ∃ starts, Dispatcher.py_range (length uids) B = Some starts ∧
    concat (List.map (fun i => Dispatcher.slice uids i (i + B)) starts) = uids ∧
    Forall (fun i => (length (Dispatcher.slice uids i (i + B)) ≤ B)%nat) starts.
Proof.
  intros HB. destruct (Dispatcher.py_range (length uids) B) as [starts|] eqn:E.
  - exists starts. split; [done|]. split; [by apply py_range_slices|].
    apply Forall_forall. intros i _. unfold Dispatcher.slice.
    rewrite length_take. lia.
  - unfold Dispatcher.py_range in E. by destruct B.
Qed.

Lemma batching_slices_partition_witness :
  ∃ starts, Dispatcher.py_range (length Dispatcher.five_uids) 2 = Some starts ∧
    concat (List.map (fun i => Dispatcher.slice Dispatcher.five_uids i (i + 2)) starts)
      = Dispatcher.five_uids ∧
    Forall (fun i => (length (Dispatcher.slice Dispatcher.five_uids i (i + 2)) ≤ 2)%nat)
           starts.
Proof.
  apply (batching_slices_partition Dispatcher.five_uids 2). discriminate.
Defined.

Lemma batch_loop_requests (q : gmap Z AxonInfo) (uids : list Z) (B : nat)
    (starts : list nat) (threads reqs : list Z) :
  (Dispatcher.batch_loop q uids B starts threads reqs).2 =
  reqs ++ Dispatcher.build_threads q
            (concat (List.map (fun i => Dispatcher.slice uids i (i + B)) starts)).
Proof.
  revert threads reqs. induction starts as [|i rest IH]; intros threads reqs.
  - simpl. unfold Dispatcher.build_threads. simpl. by rewrite app_nil_r.
  - change (Dispatcher.batch_loop q uids B (i :: rest) threads reqs) with
      (Dispatcher.batch_loop q uids B rest
         (Dispatcher.build_threads q (Dispatcher.slice uids i (i + B)))
         (reqs ++ Dispatcher.build_threads q (Dispatcher.slice uids i (i + B)))).
    rewrite IH. simpl. unfold Dispatcher.build_threads.
    by rewrite List.filter_app, app_assoc.
Qed.





(** ** Round orchestrator: schedule, deduplication of blocks, rate limit *)

Section LoopRules.

Context {I : Orchestrator.LoopState → Prop}.

Lemma inv_ret {A} (a : A) : LoopLogic.inv I (mret a).
Proof. intros s Hs. exact Hs. Qed.

Lemma inv_bind {A B} (m : Orchestrator.M A) (k : A → Orchestrator.M B) :
  LoopLogic.inv I m → (∀ a, LoopLogic.inv I (k a)) → LoopLogic.inv I (m ≫= k).
Proof.
  intros Hm Hk s Hs. specialize (Hm s Hs).
  unfold mbind, Orchestrator.M_bind.
  destruct (m s) as [a s'|e s'|s']; [|done..].
  by apply Hk.
Qed.

Lemma inv_get {B} (k : Orchestrator.LoopState → Orchestrator.M B) :
  (∀ s0, LoopLogic.inv I (k s0)) → LoopLogic.inv I (Orchestrator.get ≫= k).
Proof. intros Hk s Hs. by apply (Hk s s). Qed.

Lemma inv_when (b : bool) (m : Orchestrator.M unit) :
  LoopLogic.inv I m → LoopLogic.inv I (Orchestrator.when b m).
Proof. intros Hm. destruct b; [done|]. apply inv_ret. Qed.

Lemma inv_modify (f : Orchestrator.LoopState → Orchestrator.LoopState) :
  (∀ s, I s → I (f s)) → LoopLogic.inv I (Orchestrator.modify f).
Proof. intros Hf s Hs. by apply Hf. Qed.

Lemma inv_perform {A} (c : call A) : LoopLogic.inv I (Orchestrator.perform c).
Proof. intros s Hs. by destruct c. Qed.

Lemma inv_divides (a b : Z) : LoopLogic.inv I (Orchestrator.divides a b).
Proof. intros s Hs. unfold Orchestrator.divides. by destruct (b =? 0). Qed.

Lemma inv_raise {A} (e : exn) : LoopLogic.inv I (Orchestrator.raise (A := A) e).
Proof. intros s Hs. exact Hs. Qed.

Lemma inv_continue {A} : LoopLogic.inv I (Orchestrator.continue (A := A)).
Proof. intros s Hs. exact Hs. Qed.

Hypothesis Hstable : LoopLogic.stable I.

Lemma inv_say (e : Orchestrator.log_event) :
  LoopLogic.commit_block e = None → LoopLogic.inv I (Orchestrator.say e).
Proof. intros He. apply inv_modify. intros s. by apply Hstable. Qed.

Lemma inv_challenge_part (env : Orchestrator.TickEnv) :
  LoopLogic.inv I (Orchestrator.challenge_part env).
Proof.
  apply inv_get. intros s0. apply inv_bind; [apply inv_divides|]. intros due.
  apply inv_when.
  apply inv_bind; [apply inv_modify; intros s; apply Hstable|]. intros _.
  apply inv_bind; [apply inv_perform|]. intros _.
  by apply inv_say.
Qed.

Lemma inv_hardware_part (flag : bool) (env : Orchestrator.TickEnv) :
  LoopLogic.inv I (Orchestrator.hardware_part flag env).
Proof.
  apply inv_get. intros s0. apply inv_bind; [apply inv_divides|]. intros due.
  apply inv_when.
  apply inv_bind; [apply inv_modify; intros s; apply Hstable|]. intros _.
  destruct (Orchestrator.hardware env).
  - by apply inv_say.
  - apply inv_bind; [by apply inv_say|]. intros _. apply inv_continue.
  - apply inv_raise.
Qed.

Lemma inv_sync_status_part (env : Orchestrator.TickEnv) :
  LoopLogic.inv I (Orchestrator.sync_status_part env).
Proof.
  apply inv_get. intros s0. apply inv_bind; [apply inv_divides|]. intros due.
  apply inv_when.
  apply inv_bind; [apply inv_modify; intros s; apply Hstable|]. intros _.
  apply inv_bind; [apply inv_perform|]. intros _.
  by apply inv_say.
Qed.

(** The four sub-rounds in sequence keep [I] when the weight step does. *)
Lemma inv_sub_rounds (rate : Z) (flag : bool) (env : Orchestrator.TickEnv) :
  LoopLogic.inv I (Orchestrator.weights_part rate env) →
  LoopLogic.inv I
    (Orchestrator.challenge_part env;;
     Orchestrator.hardware_part flag env;;
     Orchestrator.sync_status_part env;;
     Orchestrator.weights_part rate env).
Proof.
  intros Hw.
  apply inv_bind; [apply inv_challenge_part|]. intros _.
  apply inv_bind; [apply inv_hardware_part|]. intros _.
  apply inv_bind; [apply inv_sync_status_part|]. intros _.
  done.
Qed.

(** The whole body keeps [I] when the weight step does and [I] does not
    depend on [blocks_done]. *)
Lemma inv_body (rate : Z) (flag : bool) (env : Orchestrator.TickEnv) :
  (∀ s d, I s →
     I (Orchestrator.mkLoop (Orchestrator.block_next_challenge s)
          (Orchestrator.block_next_hardware_info s)
          (Orchestrator.block_next_sync_status s)
          (Orchestrator.block_next_set_weights s)
          (Orchestrator.last_updated_block s) d (Orchestrator.log s))) →
  LoopLogic.inv I (Orchestrator.weights_part rate env) →
  LoopLogic.inv I (Orchestrator.body rate flag env).
Proof.
  intros Hbd Hw. unfold Orchestrator.body.
  apply inv_bind; [apply inv_perform|]. intros _.
  apply inv_get. intros s0.
  apply inv_bind; [|intros _; by apply inv_say].
  apply inv_when.
  apply inv_bind; [apply inv_modify; intros s; apply Hbd|]. intros _.
  by apply inv_sub_rounds.
Qed.

End LoopRules.

(** X20: a block that is already in [blocks_done] is not processed again:
    if the metagraph sync returns, the iteration only sleeps, whatever the
    other collaborators would do. *)
Theorem iteration_skips_processed_block (rate : Z) (flag : bool)
    (env : Orchestrator.TickEnv) (s : Orchestrator.LoopState) :
  Orchestrator.current_block env ∈ Orchestrator.blocks_done s →
  Orchestrator.sync_local env = Returns tt →
  Orchestrator.iteration rate flag env s =
  Orchestrator.Running
    (Orchestrator.append_log (Orchestrator.Slept (Orchestrator.current_block env)) s).
Proof.
  intros Hin Hsync. unfold Orchestrator.iteration, Orchestrator.body.
  unfold mbind, Orchestrator.M_bind. rewrite Hsync. simpl.
  rewrite bool_decide_eq_false_2 by (intros Hx; by apply Hx).
  reflexivity.
Qed.

Lemma iteration_skips_processed_block_witness :
  let s := Orchestrator.mkLoop 1150 1200 1125 1200 1000 {[1101]} [] in
  Orchestrator.iteration 100 true (Orchestrator.tick_commit_fails 1101) s =
  Orchestrator.Running (Orchestrator.append_log (Orchestrator.Slept 1101) s).
Proof.
  intros s.
  apply (iteration_skips_processed_block 100 true
           (Orchestrator.tick_commit_fails 1101) s).
  - simpl. set_solver.
  - reflexivity.
Defined.

Lemma stable_block_done (b : Z) :
  LoopLogic.stable (fun s => b ∈ Orchestrator.blocks_done s).
Proof. split; intros; done. Qed.

Lemma weights_part_block_done (rate : Z) (env : Orchestrator.TickEnv) :
  LoopLogic.inv (fun s => Orchestrator.current_block env ∈ Orchestrator.blocks_done s)
    (Orchestrator.weights_part rate env).
Proof.
  intros s Hs. unfold Orchestrator.weights_part, Orchestrator.set_weights.
  unfold mbind, Orchestrator.M_bind, Orchestrator.get.
  destruct (rate <? _); simpl; [|done].
  destruct (Orchestrator.sync_scores env) as [[]|e]; simpl; [|done].
  destruct (Orchestrator.subtensor_set_weights env) as [r|e]; simpl; [|done].
  set_solver.
Qed.

Lemma triple_bind {A B} (P : Orchestrator.LoopState → Prop)
    (Q : A → Orchestrator.LoopState → Prop) (R : B → Orchestrator.LoopState → Prop)
    (E : Orchestrator.LoopState → Prop)
    (m : Orchestrator.M A) (k : A → Orchestrator.M B) :
  LoopLogic.triple P m Q E → (∀ a, LoopLogic.triple (Q a) (k a) R E) →
  LoopLogic.triple P (m ≫= k) R E.
Proof.
  intros Hm Hk s Hs. specialize (Hm s Hs).
  unfold mbind, Orchestrator.M_bind.
  destruct (m s) as [a s'|e s'|s']; [|done..].
  by apply Hk.
Qed.

Lemma triple_modify (P Q E : Orchestrator.LoopState → Prop)
    (f : Orchestrator.LoopState → Orchestrator.LoopState) :
  (∀ s, P s → Q (f s)) →
  LoopLogic.triple P (Orchestrator.modify f) (fun _ => Q) E.
Proof. intros Hf s Hs. by apply Hf. Qed.

(** The body once the metagraph sync has returned. *)
Lemma body_after_sync (rate : Z) (flag : bool) (env : Orchestrator.TickEnv)
    (s : Orchestrator.LoopState) :
  Orchestrator.sync_local env = Returns tt →
  Orchestrator.body rate flag env s =
  (Orchestrator.when
     (bool_decide (Orchestrator.current_block env ∉ Orchestrator.blocks_done s))
     (Orchestrator.set_blocks_done
        ({[Orchestrator.current_block env]} ∪ Orchestrator.blocks_done s);;
      Orchestrator.challenge_part env;;
      Orchestrator.hardware_part flag env;;
      Orchestrator.sync_status_part env;;
      Orchestrator.weights_part rate env);;
   Orchestrator.say (Orchestrator.Slept (Orchestrator.current_block env))) s.
Proof.
  intros Hsync. unfold Orchestrator.body.
  unfold mbind at 1, Orchestrator.M_bind at 1. rewrite Hsync. reflexivity.
Qed.

(** X21: once the metagraph sync of an iteration has returned, the block
    is in [blocks_done] when the iteration ends, however it ends; by X20 a
    sub-round that raised is therefore not run again for that block. *)
Theorem iteration_marks_block (rate : Z) (flag : bool)
    (env : Orchestrator.TickEnv) (s : Orchestrator.LoopState) :
  Orchestrator.sync_local env = Returns tt →
  Orchestrator.current_block env ∈
    Orchestrator.blocks_done
      (Orchestrator.state_of (Orchestrator.iteration rate flag env s)).
Proof.
  intros Hsync.
  set (J := fun s => Orchestrator.current_block env ∈ Orchestrator.blocks_done s).
  assert (Hbody : match Orchestrator.body rate flag env s with
                  | Orchestrator.Done _ s' | Orchestrator.Raised _ s'
                  | Orchestrator.Continue s' => J s'
                  end).
  { rewrite (body_after_sync rate flag env s Hsync).
    destruct (decide (Orchestrator.current_block env ∈ Orchestrator.blocks_done s))
      as [Hin|Hnot].
    - rewrite bool_decide_eq_false_2 by (intros Hx; by apply Hx). exact Hin.
    - rewrite bool_decide_eq_true_2 by done. unfold Orchestrator.when.
      apply (triple_bind (fun _ => True) (fun _ => J) (fun _ => J) J); [| |done].
      + apply (triple_bind (fun _ => True) (fun _ => J) (fun _ => J) J).
        * apply triple_modify. intros s0 _. unfold J. simpl. set_solver.
        * intros _. apply (inv_sub_rounds (stable_block_done _)).
          apply weights_part_block_done.
      + intros _. by apply (inv_say (stable_block_done _)). }
  unfold Orchestrator.iteration.
  destruct (Orchestrator.body rate flag env s) as [[] s'|e s'|s']; simpl; try done.
  destruct (is_RuntimeError e); [done|].
  by destruct (is_KeyboardInterrupt e).
Qed.

(** The challenge sub-round raises at block 1150: the block is marked. *)
Lemma iteration_marks_block_witness :
  1150 ∈ Orchestrator.blocks_done
    (Orchestrator.state_of
       (Orchestrator.iteration 100 false
          (Orchestrator.mkTick 1150 (Returns tt) 60 (Raises RuntimeError) Orchestrator.HwDone
             (Returns tt) (Returns tt) (Returns true))
          Orchestrator.mid_run)).
Proof.
  apply (iteration_marks_block 100 false
           (Orchestrator.mkTick 1150 (Returns tt) 60 (Raises RuntimeError) Orchestrator.HwDone
              (Returns tt) (Returns tt) (Returns true))
           Orchestrator.mid_run).
  reflexivity.
Defined.

Lemma commit_blocks_app (l1 l2 : list Orchestrator.log_event) :
  LoopLogic.commit_blocks (l1 ++ l2)
  = LoopLogic.commit_blocks l1 ++ LoopLogic.commit_blocks l2.
Proof. unfold LoopLogic.commit_blocks. apply omap_app. Qed.

Lemma spaced_snoc (rate : Z) (bs : list Z) (c : Z) :
  LoopLogic.spaced rate bs → Forall (fun b => rate < c - b) bs →
  LoopLogic.spaced rate (bs ++ [c]).
Proof.
  induction bs as [|b rest IH]; intros Hsp Hall; simpl.
  - split; [constructor|done].
  - destruct Hsp as [Hb Hrest]. apply Forall_cons in Hall as [Hbc Hall].
    split; [|by apply IH].
    apply Forall_app. split; [done|]. by constructor.
Qed.

Lemma stable_commits_ok (rate : Z) : LoopLogic.stable (LoopLogic.commits_ok rate).
Proof.
  split.
  - intros s a b c d H. exact H.
  - intros s e He H.
    unfold LoopLogic.commits_ok, LoopLogic.commit_blocks in *. simpl.
    rewrite omap_app. simpl. rewrite He. simpl. by rewrite app_nil_r.
Qed.

(** The weight step keeps the commits in order: a commit is logged only
    for a block more than [rate] after [last_updated_block], which then
    moves to that block. *)
Lemma weights_part_commits_ok (rate : Z) (env : Orchestrator.TickEnv) :
  0 ≤ rate →
  LoopLogic.inv (LoopLogic.commits_ok rate) (Orchestrator.weights_part rate env).
Proof.
  intros Hrate s [Hle Hsp].
  unfold Orchestrator.weights_part, Orchestrator.set_weights.
  unfold mbind, Orchestrator.M_bind, Orchestrator.get.
  destruct (Z.ltb_spec rate
              (Orchestrator.current_block env - Orchestrator.last_updated_block s))
    as [Hlt|Hge]; simpl; [|by split].
  assert (Hsynced : ∀ bn,
    LoopLogic.commits_ok rate
      (Orchestrator.append_log
         (Orchestrator.ScoresSynced (Orchestrator.current_block env))
         (Orchestrator.mkLoop (Orchestrator.block_next_challenge s)
            (Orchestrator.block_next_hardware_info s)
            (Orchestrator.block_next_sync_status s) bn
            (Orchestrator.last_updated_block s) (Orchestrator.blocks_done s)
            (Orchestrator.log s)))).
  { intros bn. by apply (stable_commits_ok rate). }
  destruct (Orchestrator.sync_scores env) as [[]|e]; simpl; [|by split].
  destruct (Orchestrator.subtensor_set_weights env) as [r|e]; simpl; [|apply Hsynced].
  unfold LoopLogic.commits_ok. simpl.
  rewrite !commit_blocks_app. simpl. rewrite app_nil_r.
  split.
  - apply Forall_app. split; [|by repeat constructor].
    eapply Forall_impl; [exact Hle|]. simpl. intros b Hb. lia.
  - apply spaced_snoc; [done|].
    eapply Forall_impl; [exact Hle|]. simpl. intros b Hb. lia.
Qed.

Lemma iteration_commits_ok (rate : Z) (flag : bool) (env : Orchestrator.TickEnv)
    (s : Orchestrator.LoopState) :
  0 ≤ rate → LoopLogic.commits_ok rate s →
  LoopLogic.commits_ok rate
    (Orchestrator.state_of (Orchestrator.iteration rate flag env s)).
Proof.
  intros Hrate Hs.
  pose proof (inv_body (stable_commits_ok rate) rate flag env
                (fun s d H => H) (weights_part_commits_ok rate env Hrate) s Hs) as Hb.
  unfold Orchestrator.iteration.
  destruct (Orchestrator.body rate flag env s) as [[] s'|e s'|s']; simpl; try done.
  destruct (is_RuntimeError e); simpl.
  - by apply (stable_commits_ok rate).
  - destruct (is_KeyboardInterrupt e); simpl; [|done].
    by apply (stable_commits_ok rate).
Qed.

(** X22: for a rate limit that is not negative, over any run of the loop
    that starts with a log in which the commits are in order (an empty log,
    say), any two commit calls that returned were made more than
    [weights_rate_limit] blocks apart. *)
Theorem run_commits_spaced (rate : Z) (flag : bool)
    (envs : list Orchestrator.TickEnv) (s : Orchestrator.LoopState) :
  0 ≤ rate →
  LoopLogic.commits_ok rate s →
  LoopLogic.spaced rate
    (LoopLogic.commit_blocks
       (Orchestrator.log (Orchestrator.state_of (Orchestrator.run rate flag envs s)))).
Proof.
  intros Hrate. revert s. induction envs as [|env rest IH]; intros s Hs; simpl.
  - apply Hs.
  - pose proof (iteration_commits_ok rate flag env s Hrate Hs) as Hit.
    destruct (Orchestrator.iteration rate flag env s) as [s'|s'|e s']; simpl in *.
    + by apply IH.
    + apply Hit.
    + apply Hit.
Qed.

(** Commits at blocks 1101 and 1202, none at 1150. *)
Lemma run_commits_spaced_witness :
  LoopLogic.spaced 100
    (LoopLogic.commit_blocks
       (Orchestrator.log
          (Orchestrator.state_of
             (Orchestrator.run 100 false
                [Orchestrator.quiet_tick 1101; Orchestrator.quiet_tick 1150;
                 Orchestrator.quiet_tick 1202]
                Orchestrator.mid_run)))).
Proof.
  apply (run_commits_spaced 100 false
           [Orchestrator.quiet_tick 1101; Orchestrator.quiet_tick 1150;
            Orchestrator.quiet_tick 1202] Orchestrator.mid_run).
  - lia.
  - split; [constructor|exact I].
Defined.

(** X23: the challenge sub-round runs only at multiples of
    [block_next_challenge]: at a positive block below twice that value and
    different from it, before it or after it was missed, the sub-round
    does nothing. *)
Theorem challenge_not_due (env : Orchestrator.TickEnv) (s : Orchestrator.LoopState) :
  0 < Orchestrator.current_block env →
  0 < Orchestrator.block_next_challenge s →
  Orchestrator.current_block env < 2 * Orchestrator.block_next_challenge s →
  Orchestrator.current_block env ≠ Orchestrator.block_next_challenge s →
  Orchestrator.challenge_part env s = Orchestrator.Done tt s.
Proof.
  intros Hc Hn H2 Hne. unfold Orchestrator.challenge_part, Orchestrator.divides.
  unfold mbind, Orchestrator.M_bind, Orchestrator.get.
  destruct (Z.eqb_spec (Orchestrator.block_next_challenge s) 0); [lia|]. simpl.
  destruct (Z.eqb_spec
              (Orchestrator.current_block env `mod` Orchestrator.block_next_challenge s) 0)
    as [Hmod|Hmod]; [|done].
  exfalso.
  pose proof (Z.div_mod (Orchestrator.current_block env)
                (Orchestrator.block_next_challenge s) ltac:(lia)) as Hdm.
  rewrite Hmod in Hdm.
  remember (Orchestrator.current_block env `div` Orchestrator.block_next_challenge s)
    as q eqn:Eq.
  clear Eq Hmod.
  assert (q ≤ 0 ∨ q = 1 ∨ 2 ≤ q) as [Hq|[->|Hq]] by lia; nia.
Qed.

(** Block 1151, one after the due block 1150 was missed. *)
Lemma challenge_not_due_witness :
  Orchestrator.challenge_part (Orchestrator.quiet_tick 1151) Orchestrator.mid_run
  = Orchestrator.Done tt Orchestrator.mid_run.
Proof.
  apply (challenge_not_due (Orchestrator.quiet_tick 1151) Orchestrator.mid_run);
    simpl; lia.
Defined.

(** At a due block the next challenge block is moved to the current block
    plus the random offset before the sub-round runs, so it is moved
    whether the sub-round returns or raises. *)
Lemma challenge_reschedules_first (env : Orchestrator.TickEnv)
    (s : Orchestrator.LoopState) :
  Orchestrator.block_next_challenge s ≠ 0 →
  Orchestrator.current_block env `mod` Orchestrator.block_next_challenge s = 0 →
  ∃ s', (Orchestrator.challenge_part env s = Orchestrator.Done tt s' ∨
         ∃ e, Orchestrator.challenge env = Raises e ∧
              Orchestrator.challenge_part env s = Orchestrator.Raised e s') ∧
        Orchestrator.block_next_challenge s'
          = Orchestrator.current_block env + Orchestrator.randint_40_80 env.
Proof.
  intros Hn Hmod. unfold Orchestrator.challenge_part, Orchestrator.divides.
  unfold mbind, Orchestrator.M_bind, Orchestrator.get.
  destruct (Z.eqb_spec (Orchestrator.block_next_challenge s) 0); [done|]. simpl.
  rewrite Hmod. simpl.
  destruct (Orchestrator.challenge env) as [[]|e]; simpl.
  - eexists. split; [by left|]. done.
  - eexists. split; [right; by exists e|]. done.
Qed.

Lemma challenge_reschedules_first_witness :
  let env := Orchestrator.mkTick 1150 (Returns tt) 60 (Raises RuntimeError)
               Orchestrator.HwDone (Returns tt) (Returns tt) (Returns true) in
  ∃ s', (Orchestrator.challenge_part env Orchestrator.mid_run = Orchestrator.Done tt s' ∨
         ∃ e, Orchestrator.challenge env = Raises e ∧
              Orchestrator.challenge_part env Orchestrator.mid_run
                = Orchestrator.Raised e s') ∧
        Orchestrator.block_next_challenge s'
          = Orchestrator.current_block env + Orchestrator.randint_40_80 env.
Proof.
  intros env.
  apply (challenge_reschedules_first env Orchestrator.mid_run).
  - simpl. lia.
  - reflexivity.
Defined.

(** X24: for block heights that are not negative and random offsets in
    range, the loop body raises only what a collaborator raised (never a
    division by zero on a schedule local), and leaves the three schedule
    locals positive. *)
Theorem body_raises_what_collaborators_raise (rate : Z) (flag : bool)
    (env : Orchestrator.TickEnv) (s : Orchestrator.LoopState) :
  Orchestrator.env_wf env →
  Orchestrator.schedule_positive s →
  Orchestrator.schedule_positive
    (Orchestrator.state_of (Orchestrator.iteration rate flag env s)) ∧
  ∀ e s', Orchestrator.body rate flag env s = Orchestrator.Raised e s' →
          e ∈ Orchestrator.env_exceptions env.
Proof.
  intros Hwf Hs.
  pose proof (body_keeps rate flag env Hwf s I Hs) as Hb.
  unfold Orchestrator.iteration.
  destruct (Orchestrator.body rate flag env s) as [[] s'|e s'|s']; simpl.
  - split; [done|]. intros ? ? [=].
  - destruct Hb as [Hs' He]. split.
    + destruct (is_RuntimeError e); [done|]. by destruct (is_KeyboardInterrupt e).
    + by intros ? ? [= <- <-].
  - split; [done|]. intros ? ? [=].
Qed.

Lemma body_raises_what_collaborators_raise_witness :
  Orchestrator.schedule_positive
    (Orchestrator.state_of
       (Orchestrator.iteration 100 false (Orchestrator.quiet_tick 1150)
          Orchestrator.mid_run)).
Proof.
  apply (body_raises_what_collaborators_raise 100 false
           (Orchestrator.quiet_tick 1150) Orchestrator.mid_run).
  - unfold Orchestrator.env_wf. simpl. lia.
  - unfold Orchestrator.schedule_positive. simpl. lia.
Defined.

(** X25: when the hardware sub-round is due and its script cannot be
    read, the [continue] ends the iteration: the status sync and the weight
    step are not run for this block, even if they are due, the iteration
    does not sleep, and the log gains the challenge round, if one ran, and
    the error. *)
Theorem hardware_file_error_skips_rest (rate : Z) (env : Orchestrator.TickEnv)
    (s : Orchestrator.LoopState) :
  Orchestrator.current_block env ∉ Orchestrator.blocks_done s →
  Orchestrator.sync_local env = Returns tt →
  Orchestrator.challenge env = Returns tt →
  Orchestrator.block_next_challenge s ≠ 0 →
  Orchestrator.block_next_hardware_info s ≠ 0 →
  Orchestrator.current_block env `mod` Orchestrator.block_next_hardware_info s = 0 →
  Orchestrator.hardware env = Orchestrator.HwFileError →
  ∃ s' pre,
    Orchestrator.iteration rate true env s = Orchestrator.Running s' ∧
    Orchestrator.block_next_sync_status s' = Orchestrator.block_next_sync_status s ∧
    Orchestrator.last_updated_block s' = Orchestrator.last_updated_block s ∧
    Orchestrator.log s' =
      Orchestrator.log s ++ pre ++ [Orchestrator.ErrorLogged OSError] ∧
    (pre = [] ∨ pre = [Orchestrator.ChallengeRound (Orchestrator.current_block env)]).
Proof.
  intros Hnew Hsync Hch Hnc Hnh Hdue Hhw.
  unfold Orchestrator.iteration.
  rewrite (body_after_sync rate true env s Hsync).
  rewrite bool_decide_eq_true_2 by done.
  unfold Orchestrator.when at 1.
  unfold Orchestrator.challenge_part, Orchestrator.hardware_part, Orchestrator.divides.
  unfold mbind, Orchestrator.M_bind, Orchestrator.get. simpl.
  destruct (Z.eqb_spec (Orchestrator.block_next_challenge s) 0); [done|]. simpl.
  destruct (Orchestrator.current_block env `mod` Orchestrator.block_next_challenge s =? 0);
    simpl.
  - rewrite Hch. simpl.
    destruct (Z.eqb_spec (Orchestrator.block_next_hardware_info s) 0); [done|]. simpl.
    rewrite Hdue, Hhw. simpl.
    eexists. exists [Orchestrator.ChallengeRound (Orchestrator.current_block env)].
    split; [reflexivity|]. simpl. rewrite <- app_assoc. auto.
  - destruct (Z.eqb_spec (Orchestrator.block_next_hardware_info s) 0); [done|]. simpl.
    rewrite Hdue, Hhw. simpl.
    eexists. exists []. split; [reflexivity|]. simpl. auto.
Qed.

(** Block 1200, at which the hardware query and the weight step are due. *)
Lemma hardware_file_error_skips_rest_witness :
  let env := Orchestrator.mkTick 1200 (Returns tt) 60 (Returns tt)
               Orchestrator.HwFileError (Returns tt) (Returns tt) (Returns true) in
  ∃ s' pre,
    Orchestrator.iteration 100 true env Orchestrator.mid_run = Orchestrator.Running s' ∧
    Orchestrator.block_next_sync_status s'
      = Orchestrator.block_next_sync_status Orchestrator.mid_run ∧
    Orchestrator.last_updated_block s'
      = Orchestrator.last_updated_block Orchestrator.mid_run ∧
    Orchestrator.log s' =
      Orchestrator.log Orchestrator.mid_run ++ pre
      ++ [Orchestrator.ErrorLogged OSError] ∧
    (pre = [] ∨ pre = [Orchestrator.ChallengeRound (Orchestrator.current_block env)]).
Proof.
  intros env.
  apply (hardware_file_error_skips_rest 100 env Orchestrator.mid_run);
    try reflexivity; simpl; try lia.
  set_solver.
Defined.

(** * Properties of the miner details table *)

Lemma lt_num_false (a b : Q) : MinerDb.lt_num a b = false ↔ (b <= a)%Q.
Proof.
  unfold MinerDb.lt_num. rewrite negb_false_iff. apply Qle_bool_iff.
Qed.

(** The checks that follow the GPU check, and the conclusion. *)
Ltac miner_meet_tail H details required required_gpu mc rc E3 E4 :=
  destruct (details !! "hard_disk"%string) as [hdm|] eqn:E7; [|done];
  destruct (required !! "hard_disk"%string) as [rhd|] eqn:E8; [|done];
  destruct (hdm !! "free"%string) as [hf|] eqn:E9; [|done];
  destruct (rhd !! "capacity"%string) as [hc|] eqn:E10; [|done];
  destruct (MinerDb.lt_num hf hc) eqn:L3; [done|];
  destruct (details !! "ram"%string) as [rmm|] eqn:E11; [|done];
  destruct (required !! "ram"%string) as [rrm|] eqn:E12; [|done];
  destruct (rmm !! "available"%string) as [ma|] eqn:E13; [|done];
  destruct (rrm !! "capacity"%string) as [rm|] eqn:E14; [|done];
  destruct (MinerDb.lt_num ma rm) eqn:L4; [done|];
  split; [|split; [|split]];
  [ exists mc, rc; split; [exact E3|]; split; [exact E4|]; by apply lt_num_false
  | exists hf, hc; split; [exact E9|]; split; [exact E10|]; by apply lt_num_false
  | exists ma, rm; split; [exact E13|]; split; [exact E14|]; by apply lt_num_false
  | exists required_gpu; split; [reflexivity|]; split; [by eexists|] ].



(** What the insertion loop builds, from any starting index. *)
Lemma insert_rows_spec (hks : list string)
    (responses : list (gmap string (gmap string Q))) :
  ∀ (index : nat) (rows : list MinerDb.Row),
  let r := MinerDb.insert_rows hks responses index rows in
  MinerDb.row_hotkey <$> r.1
    = (MinerDb.row_hotkey <$> rows) ++ take (length responses) (drop index hks) ∧
  MinerDb.row_details <$> r.1
    = (MinerDb.row_details <$> rows) ++ take (length (drop index hks)) responses ∧
  MinerDb.row_id <$> r.1
    = (MinerDb.row_id <$> rows)
      ++ (Z.of_nat <$> seq (S (length rows))
                           (min (length (drop index hks)) (length responses))) ∧
  r.2 = if (length (drop index hks) <? length responses)%nat
        then Some IndexError else None.
Proof.
  induction responses as [|d rest IH]; intros index rows; simpl.
  - rewrite take_0, take_nil, Nat.min_0_r. simpl. rewrite !app_nil_r. done.
  - destruct (hks !! index) as [hk|] eqn:Hl.
    + destruct (IH (S index) (rows ++ [MinerDb.mkRow (Z.of_nat (length rows) + 1) hk d]))
        as (H1 & H2 & H3 & H4).
      assert (Hd : drop index hks = hk :: drop (S index) hks).
      { by apply drop_S. }
      rewrite Hd. simpl.
      rewrite H1, H2, H3, H4. rewrite !fmap_app, <- !app_assoc, length_app. simpl.
      repeat split.
      f_equal. f_equal.
      * f_equal. lia.
      * f_equal. f_equal. lia.
    + apply lookup_ge_None in Hl.
      rewrite drop_ge by done. simpl. rewrite !app_nil_r. done.
Qed.

Lemma update_table_aux (table : list MinerDb.Row) (hks : list string)
    (responses : list (gmap string (gmap string Q))) :
  MinerDb.row_hotkey <$> (MinerDb.update table hks responses).1
    = take (length responses) hks ∧
  MinerDb.row_details <$> (MinerDb.update table hks responses).1
    = take (length hks) responses ∧
  MinerDb.row_id <$> (MinerDb.update table hks responses).1
    = Z.of_nat <$> seq 1 (min (length hks) (length responses)) ∧
  (MinerDb.update table hks responses).2
    = if (length hks <? length responses)%nat
      then Some IndexError else None.
Proof.
  unfold MinerDb.update.
  destruct (insert_rows_spec hks responses 0 []) as (H1 & H2 & H3 & H4).
  rewrite drop_0 in *. done.
Qed.

(** X27: [update] forgets the old rows entirely; the new table pairs the
    first hotkeys with the first responses, as many as both lists have,
    under the keys 1, 2, ...; the call ends with [IndexError] exactly when
    there are more responses than hotkeys. *)
Theorem update_table (table : list MinerDb.Row) (hks : list string)
    (responses : list (gmap string (gmap string Q))) :
  MinerDb.row_hotkey <$> (MinerDb.update table hks responses).1
    = take (length responses) hks ∧
  MinerDb.row_details <$> (MinerDb.update table hks responses).1
    = take (length hks) responses ∧
  MinerDb.row_id <$> (MinerDb.update table hks responses).1
    = Z.of_nat <$> seq 1 (min (length hks) (length responses)) ∧
  (MinerDb.update table hks responses).2
    = if (length hks <? length responses)%nat
      then Some IndexError else None.
Proof. apply update_table_aux. Qed.

(** The hotkeys selected are those of the rows that meet the demand. *)
Lemma select_miners_hotkey_elem (rows : list MinerDb.Row)
    (req : gmap string (gmap string Q)) (l : list string) :
  MinerDb.select_miners_hotkey rows req = Returns l →
  l `sublist_of` MinerDb.row_hotkey <$> rows ∧
  ∀ h, h ∈ l ↔
       ∃ row, row ∈ rows ∧ MinerDb.row_hotkey row = h ∧
              MinerDb.check_if_miner_meet (MinerDb.row_details row) req = Returns true.
Proof.
  revert l. induction rows as [|row rest IH]; intros l; simpl.
  - intros [= <-]. split; [done|]. intros h. split.
    + intros Hin. by apply elem_of_nil in Hin.
    + intros (row & Hin & _). by apply elem_of_nil in Hin.
  - unfold mbind, MinerDb.call_bind.
    destruct (MinerDb.check_if_miner_meet (MinerDb.row_details row) req)
      as [ok|e] eqn:Hc; [|done].
    destruct (MinerDb.select_miners_hotkey rest req) as [l'|e] eqn:Hs; [|done].
    destruct (IH l' eq_refl) as [Hsub Hiff].
    intros [= <-]. split.
    + destruct ok; [by apply sublist_skip|by apply sublist_cons].
    + intros h. destruct ok.
      * rewrite elem_of_cons, Hiff. split.
        -- intros [->|(r & Hin & Hh & Hr)].
           ++ exists row. split; [left|done].
           ++ exists r. split; [by right|done].
        -- intros (r & Hin & Hh & Hr). apply elem_of_cons in Hin as [->|Hin].
           ++ by left.
           ++ right. by exists r.
      * rewrite Hiff. split.
        -- intros (r & Hin & Hh & Hr). exists r. split; [by right|done].
        -- intros (r & Hin & Hh & Hr). apply elem_of_cons in Hin as [->|Hin].
           ++ congruence.
           ++ by exists r.
Qed.

(** X28: after an [update] with at least as many hotkeys as responses, a
    selection that returns holds exactly the hotkeys whose response, at the
    same position, meets the demand, in the order of the hotkey list. *)
Theorem update_then_select (table : list MinerDb.Row) (hks : list string)
    (responses : list (gmap string (gmap string Q)))
    (req : gmap string (gmap string Q)) (l : list string) :
  (length responses ≤ length hks)%nat →
  MinerDb.select_miners_hotkey (MinerDb.update table hks responses).1 req = Returns l →
  (MinerDb.update table hks responses).2 = None ∧
  l `sublist_of` hks ∧
  ∀ h, h ∈ l ↔
       ∃ i d, hks !! i = Some h ∧ responses !! i = Some d ∧
              MinerDb.check_if_miner_meet d req = Returns true.
Proof.
  intros Hlen Hsel.
  destruct (update_table_aux table hks responses) as (H1 & H2 & _ & H4).
  apply select_miners_hotkey_elem in Hsel as [Hsub Hiff].
  split.
  { rewrite H4. destruct (Nat.ltb_spec (length hks) (length responses)); [lia|done]. }
  split.
  { etrans; [exact Hsub|]. rewrite H1. apply sublist_take. }
  intros h. rewrite Hiff. split.
  - intros (row & Hin & Hh & Hc).
    apply list_elem_of_lookup in Hin as [i Hi].
    exists i, (MinerDb.row_details row). split; [|split; [|done]].
    + assert ((MinerDb.row_hotkey <$> (MinerDb.update table hks responses).1) !! i
              = Some h) as Hx by (by rewrite list_lookup_fmap, Hi; simpl; rewrite Hh).
      rewrite H1 in Hx. by apply lookup_take_Some in Hx as [Hx _].
    + assert ((MinerDb.row_details <$> (MinerDb.update table hks responses).1) !! i
              = Some (MinerDb.row_details row)) as Hx
        by (by rewrite list_lookup_fmap, Hi).
      rewrite H2 in Hx. by apply lookup_take_Some in Hx as [Hx _].
  - intros (i & d & Hh & Hd & Hc).
    assert (Hi : (i < length responses)%nat) by (by eapply lookup_lt_Some).
    assert (Hrow : is_Some ((MinerDb.update table hks responses).1 !! i)).
    { apply lookup_lt_is_Some.
      rewrite <- (length_fmap MinerDb.row_hotkey), H1, length_take. lia. }
    destruct Hrow as [row Hrow].
    exists row. split; [by eapply list_elem_of_lookup_2|].
    assert ((MinerDb.row_hotkey <$> (MinerDb.update table hks responses).1) !! i
            = Some (MinerDb.row_hotkey row)) as Hx by (by rewrite list_lookup_fmap, Hrow).
    assert ((MinerDb.row_details <$> (MinerDb.update table hks responses).1) !! i
            = Some (MinerDb.row_details row)) as Hy by (by rewrite list_lookup_fmap, Hrow).
    rewrite H1 in Hx. rewrite H2 in Hy.
    apply lookup_take_Some in Hx as [Hx _]. apply lookup_take_Some in Hy as [Hy _].
    split; congruence.
Qed.

(** Two hotkeys; the response stored for the first meets the demand, the
    one stored for the second has too few CPUs. *)
Lemma update_then_select_witness :
  let small : gmap string (gmap string Q) :=
    <["cpu"%string := {["count"%string := 2%Q]}]> MinerDb.example_details in
  let hks := ["hkA"; "hkB"]%string in
  let responses := [MinerDb.example_details; small] in
  (MinerDb.update [] hks responses).2 = None ∧
  ["hkA"%string] `sublist_of` hks ∧
  ∀ h, h ∈ ["hkA"%string] ↔
       ∃ i d, hks !! i = Some h ∧ responses !! i = Some d ∧
              MinerDb.check_if_miner_meet d MinerDb.example_required = Returns true.
Proof.
  intros small hks responses.
  apply (update_then_select [] hks responses MinerDb.example_required ["hkA"%string]).
  - simpl. lia.
  - reflexivity.
Defined.

(** * Properties of the miner *)

Lemma list_index_spec (l : list string) (x : string) :
  match Miner.list_index l x with
  | Returns i => l !! i = Some x ∧ ∀ j y, (j < i)%nat → l !! j = Some y → y ≠ x
  | Raises e => e = ValueError ∧ x ∉ l
  end.
Proof.
  induction l as [|y rest IH]; simpl.
  - split; [done|]. apply not_elem_of_nil.
  - destruct (String.eqb_spec y x) as [->|Hne].
    + split; [done|]. intros j z Hj. lia.
    + destruct (Miner.list_index rest x) as [i|e].
      * destruct IH as [Hl Hfirst]. split; [done|].
        intros [|j] z Hj Hz; simpl in Hz.
        -- by injection Hz as <-.
        -- apply (Hfirst j z); [lia|done].
      * destruct IH as [-> Hnot]. split; [done|].
        apply not_elem_of_cons. split; [congruence|done].
Qed.

(** X29: a caller that [base_blacklist] lets through is registered in the
    metagraph, has a stake of at least 1024 at its first position there,
    and is whitelisted when the whitelist is not empty; [base_priority]
    then returns that stake, without raising. *)
Theorem base_blacklist_accepts (hotkeys : list string) (S : list Q)
    (whitelist : gset string) (caller msg : string) :
  Miner.base_blacklist hotkeys S whitelist caller = Returns (false, msg) →
  ∃ i stake,
    hotkeys !! i = Some caller ∧
    (∀ j y, (j < i)%nat → hotkeys !! j = Some y → y ≠ caller) ∧
    S !! i = Some stake ∧ (1024 <= stake)%Q ∧
    (whitelist = ∅ ∨ caller ∈ whitelist) ∧
    Miner.base_priority hotkeys S caller = Returns stake.
Proof.
  unfold Miner.base_blacklist, Miner.base_priority.
  case_bool_decide as Hin; [done|].
  pose proof (list_index_spec hotkeys caller) as Hidx.
  destruct (Miner.list_index hotkeys caller) as [i|e]; [|done].
  destruct Hidx as [Hi Hfirst].
  unfold Miner.stake_at.
  destruct (S !! i) as [stake|] eqn:Hs; [|done].
  destruct (MinerDb.lt_num stake 1024) eqn:Hlt; [done|].
  destruct ((0 <? size whitelist)%nat && bool_decide (caller ∉ whitelist)) eqn:Hw; [done|].
  intros _. exists i, stake.
  split; [done|]. split; [done|]. split; [done|].
  split; [by apply lt_num_false|]. split; [|done].
  apply andb_false_iff in Hw as [Hw|Hw].
  - left. apply Nat.ltb_ge in Hw. apply leibniz_equiv, size_empty_inv. lia.
  - right. apply bool_decide_eq_false in Hw. by apply dec_stable.
Qed.

Lemma base_blacklist_accepts_witness :
  ∃ i stake,
    ["hkV"; "hkM"]%string !! i = Some "hkV"%string ∧
    (∀ j y, (j < i)%nat → ["hkV"; "hkM"]%string !! j = Some y → y ≠ "hkV"%string) ∧
    [5000%Q; 3%Q] !! i = Some stake ∧ (1024 <= stake)%Q ∧
    ((∅ : gset string) = ∅ ∨ "hkV"%string ∈ (∅ : gset string)) ∧
    Miner.base_priority ["hkV"; "hkM"]%string [5000%Q; 3%Q] "hkV" = Returns stake.
Proof.
  apply (base_blacklist_accepts ["hkV"; "hkM"]%string [5000%Q; 3%Q] ∅ "hkV"
           "Hotkey recognized!").
  reflexivity.
Defined.

(** What the body of the miner loop does to the step counter. *)
Lemma miner_body_step (auto_update : bool) (env : Miner.MinerEnv) (s : Miner.MinerState) :
  match Miner.miner_body auto_update env s with
  | (s', None) => Miner.step s' = Miner.step s + 1
  | (s', Some e) => Miner.step s' = Miner.step s ∧ e ∈ Miner.miner_exceptions env ∧
                    Miner.MinerSlept (Miner.step s) ∉ drop (length (Miner.miner_log s))
                                                           (Miner.miner_log s')
  end.
Proof.
  unfold Miner.miner_body, Miner.miner_exceptions.
  destruct (Miner.step s `mod` 5 =? 0); simpl.
  - destruct (Miner.refresh_metagraph env) as [[]|e]; simpl.
    + destruct ((Miner.step s `mod` 30 =? 0) && auto_update); simpl; [|done].
      destruct (Miner.try_update env) as [[]|e]; simpl; [done|].
      split; [done|]. split; [set_solver|].
      rewrite drop_app_length. set_solver.
    + split; [done|]. split; [set_solver|]. rewrite drop_all. set_solver.
  - destruct ((Miner.step s `mod` 30 =? 0) && auto_update); simpl; [|done].
    destruct (Miner.try_update env) as [[]|e]; simpl; [done|].
    split; [done|]. split; [|rewrite drop_all; set_solver].
    destruct (Miner.refresh_metagraph env); set_solver.
Qed.

(** What [caught_as_Exception] says about the two handlers. *)
Lemma caught_as_Exception_true (e : exn) :
  Miner.caught_as_Exception e = true →
  is_KeyboardInterrupt e = false ∧ Miner.is_Exception e = true.
Proof.
  unfold Miner.caught_as_Exception. intros H.
  apply andb_true_iff in H as [H1 H2]. by apply negb_true_iff in H1.
Qed.

Lemma miner_iteration_survives (auto_update : bool) (env : Miner.MinerEnv)
    (s : Miner.MinerState) :
  Forall (fun e => Miner.caught_as_Exception e = true) (Miner.miner_exceptions env) →
  ∃ s', Miner.miner_iteration auto_update env s = Miner.MinerRunning s' ∧
        Miner.step s ≤ Miner.step s' ≤ Miner.step s + 1.
Proof.
  intros Hex. pose proof (miner_body_step auto_update env s) as Hb.
  unfold Miner.miner_iteration.
  destruct (Miner.miner_body auto_update env s) as [s' [e|]].
  - destruct Hb as (Hstep & Hin & _).
    rewrite Forall_forall in Hex.
    destruct (caught_as_Exception_true e (Hex e Hin)) as [-> ->].
    eexists. split; [done|]. simpl. lia.
  - eexists. split; [done|]. lia.
Qed.

(** X30: in the miner loop an exception whose class derives from
    [Exception] and not from [KeyboardInterrupt] is logged and the loop
    goes on at once: the step counter is not advanced and the iteration
    does not sleep, so the call that failed is made again in the next
    iteration.  Any other exception is not logged: one that derives from
    [KeyboardInterrupt] stops the axon and ends the loop, and one that
    derives from [BaseException] only (such as [asyncio.CancelledError] or
    [SystemExit]) leaves the loop uncaught.  Over a run in which only
    exceptions of the first kind are raised the loop is never left and the
    counter advances by at most one per iteration. *)
Theorem miner_loop_exception_handling (auto_update : bool) :
  (∀ env s s' e,
     Miner.miner_body auto_update env s = (s', Some e) →
     (Miner.caught_as_Exception e = true →
      Miner.miner_iteration auto_update env s
        = Miner.MinerRunning (Miner.miner_say (Miner.MinerError e) s')) ∧
     (Miner.caught_as_Exception e = false →
      Miner.miner_iteration auto_update env s
        = if is_KeyboardInterrupt e
          then Miner.MinerStopped (Miner.miner_say Miner.AxonStopped s')
          else Miner.MinerCrashed e s') ∧
     Miner.step s' = Miner.step s ∧
     (Miner.miner_log s' = Miner.miner_log s ∨
      Miner.miner_log s' = Miner.miner_log s ++ [Miner.Refreshed (Miner.step s)])) ∧
  (∀ envs s,
     Forall (fun env => Forall (fun e => Miner.caught_as_Exception e = true)
                               (Miner.miner_exceptions env)) envs →
     ∃ s', Miner.miner_run auto_update envs s = Miner.MinerRunning s' ∧
           Miner.step s ≤ Miner.step s' ≤ Miner.step s + Z.of_nat (length envs)).
Proof.
  split.
  - intros env s s' e Hb.
    split; [|split].
    + intros He. unfold Miner.miner_iteration. rewrite Hb.
      by destruct (caught_as_Exception_true e He) as [-> ->].
    + intros He. unfold Miner.miner_iteration. rewrite Hb.
      unfold Miner.caught_as_Exception in He.
      destruct (is_KeyboardInterrupt e); [done|].
      simpl in He. by rewrite He.
    + unfold Miner.miner_body in Hb.
      destruct (Miner.step s `mod` 5 =? 0); simpl in Hb.
      * destruct (Miner.refresh_metagraph env) as [[]|e0]; simpl in Hb.
        -- destruct ((Miner.step s `mod` 30 =? 0) && auto_update); simpl in Hb; [|done].
           destruct (Miner.try_update env) as [[]|e1]; simpl in Hb; [done|].
           injection Hb as <- <-. split; [done|]. by right.
        -- injection Hb as <- <-. split; [done|]. by left.
      * destruct ((Miner.step s `mod` 30 =? 0) && auto_update); simpl in Hb; [|done].
        destruct (Miner.try_update env) as [[]|e1]; simpl in Hb; [done|].
        injection Hb as <- <-. split; [done|]. by left.
  - intros envs. induction envs as [|env rest IH]; intros s Hex; simpl.
    + exists s. split; [done|]. lia.
    + apply Forall_cons in Hex as [Hex Hrest].
      destruct (miner_iteration_survives auto_update env s Hex) as (s1 & Hit & Hstep).
      rewrite Hit. destruct (IH s1 Hrest) as (s' & Hrun & Hsteps).
      exists s'. split; [done|]. lia.
Qed.

(** The metagraph refresh fails at step 10 with [ConnectionError], then
    works; a refresh cancelled with [asyncio.CancelledError] ends the
    loop. *)
Lemma miner_loop_exception_handling_witness :
  let cancelled :=
    OtherException "CancelledError" ["BaseException"]%string in
  let bad := Miner.mkMinerEnv (Raises ConnectionError) (Returns tt) in
  let worse := Miner.mkMinerEnv (Raises cancelled) (Returns tt) in
  let good := Miner.mkMinerEnv (Returns tt) (Returns tt) in
  let s := Miner.mkMiner 10 [] in
  Miner.miner_iteration true bad s
    = Miner.MinerRunning (Miner.miner_say (Miner.MinerError ConnectionError) s) ∧
  Miner.miner_iteration true worse s = Miner.MinerCrashed cancelled s ∧
  ∃ s', Miner.miner_run true [bad; good] s = Miner.MinerRunning s' ∧
        Miner.step s ≤ Miner.step s' ≤ Miner.step s + Z.of_nat (length [bad; good]).
Proof.
  intros cancelled bad worse good s. split; [|split].
  - apply (proj1 (proj1 (miner_loop_exception_handling true) bad s s ConnectionError
                    eq_refl)).
    reflexivity.
  - apply (proj1 (proj2 (proj1 (miner_loop_exception_handling true) worse s s cancelled
                           eq_refl))).
    reflexivity.
  - apply (proj2 (miner_loop_exception_handling true)).
    repeat constructor.
Defined.
